(** * The compositing stage of a playout channel (core/producer/stage.cpp)

    A shallow embedding of [stage::impl]: the layer table, the table of
    layer consumers (routes), the per-frame render pass, the transform
    commands, the swaps between stages and the interaction hit test.

    The collaborators of the stage that live in other translation units
    (layer, tweened_transform, interaction_aggregator, executor, the
    frame and producer types) are interfaces here: their types and
    operations are the fields of two classes, and every theorem holds for
    all their implementations. *)

From stdpp Require Import gmap list sorting strings.

Set Default Proof Using "Type".
#[local] Set Warnings "-clear-no-such-hyp".
Local Open Scope Z_scope.

(** ** Opaque value types *)

(** What stage.cpp includes but never looks inside. [coord] stands for the
    [double] coordinates of a pointer event; the stage only compares them
    with 0.0 and 1.0, which is [coord_le]. [tween_at] is
    [frame_transform::tween]. *)
Class Values := {
  frame_transform : Type;
  tweener : Type;
  draw_frame : Type;
  video_format_desc : Type;
  frame_producer : Type;
  write_frame_consumer : Type;
  interaction_event : Type;
  exception : Type;
  producer_state : Type;
  auto_play_delta_t : Type;
  coord : Type;
  identity_transform : frame_transform;
  linear_tweener : tweener;
  tween_at : N → frame_transform → frame_transform → N → tweener → frame_transform;
  draw_frame_empty : draw_frame;
  coord_zero : coord;
  coord_one : coord;
  coord_le : coord → coord → bool;
  fresh_state : option Z → producer_state;
}.

(** [core::frame_consumer_mode] *)
Inductive frame_consumer_mode := foreground | background | next_producer.

Global Instance frame_consumer_mode_eq_dec : EqDecision frame_consumer_mode.
Proof. solve_decision. Defined.

(** A thrown exception leaves the state as it is at the throw: a
    computation returns the state it reached together with its outcome. *)
Inductive outcome {values : Values} (A : Type) :=
  | returns (a : A)
  | throws (e : exception).
Global Arguments returns {_ _} _.
Global Arguments throws {_ _} _.

Definition eff {values : Values} (S A : Type) : Type := S → S * outcome A.

Definition ret {values : Values} {S A} (a : A) : eff S A := λ s, (s, returns a).

Definition throw {values : Values} {S A} (e : exception) : eff S A := λ s, (s, throws e).

Definition bind {values : Values} {S A B} (m : eff S A) (k : A → eff S B) : eff S B :=
  λ s, match m s with
       | (s', returns a) => k a s'
       | (s', throws e) => (s', throws e)
       end.

Notation "'let!' x ':=' m 'in' k" := (bind m (λ x, k))
  (at level 10, x name, m at level 100, k at level 200, only parsing).
Notation "m ';;' k" := (bind m (λ _, k))
  (at level 100, k at level 200, right associativity, only parsing).

(** [for (auto& x : xs) f(x)]; the first exception ends the loop. *)
Fixpoint for_each {values : Values} {S A} (f : A → eff S unit) (xs : list A) : eff S unit :=
  match xs with
  | [] => ret ()
  | x :: xs' => f x ;; for_each f xs'
  end.

(** ** Ordered maps

    [std::map<int, T>] is a [gmap Z T]; its iteration order is the ascending
    order of the keys. *)
Definition keys_asc {A} (m : gmap Z A) : list Z :=
  merge_sort Z.le (elements (dom m)).

Definition items_asc {A} (m : gmap Z A) : list (Z * A) :=
  omap (λ k, (k,.) <$> m !! k) (keys_asc m).

Definition values_asc {A} (m : gmap Z A) : list A := snd <$> items_asc m.

(** [m[k]]: default-construct the value when the key is absent. *)
Definition subscript {A} (d : A) (k : Z) (m : gmap Z A) : gmap Z A :=
  match m !! k with
  | Some _ => m
  | None => <[k := d]> m
  end.

(** ** Tweens and layers *)

Section model.
Context {values : Values}.

(** Modelled from the spec: [tweened_transform] (core/frame/frame_transform.h
    is not part of the sources at hand). A tween has a source, a destination,
    a duration in frames, the frames elapsed and an easing; [fetch] yields the
    interpolated transform and does not advance; a new tween starts at frame
    0; the default tween goes from identity to identity in 0 frames. *)
Record tweened_transform := {
  source_ : frame_transform;
  dest_ : frame_transform;
  duration_ : N;
  time_ : N;
  tweener_ : tweener;
}.

Definition fetch (t : tweened_transform) : frame_transform :=
  tween_at (time_ t) (source_ t) (dest_ t) (duration_ t) (tweener_ t).

Definition dest (t : tweened_transform) : frame_transform := dest_ t.

Definition tweened_transform_new (src dst : frame_transform) (duration : N) (tw : tweener)
  : tweened_transform :=
  {| source_ := src; dest_ := dst; duration_ := duration; time_ := 0%N; tweener_ := tw |}.

Definition tweened_transform_default : tweened_transform :=
  tweened_transform_new identity_transform identity_transform 0%N linear_tweener.

(** Modelled from the spec: [layer] (layer.h is not part of the sources at
    hand). A layer is its tween and the producer side (foreground,
    background, play state, auto-play count), which the stage never
    inspects. [layer_new (Some index)] is [layer(index)], [layer_new None]
    is the default-constructed [layer()]. *)
Record layer := {
  state_ : producer_state;
  tween_ : tweened_transform;
}.

Definition layer_new (index : option Z) : layer :=
  {| state_ := fresh_state index; tween_ := tweened_transform_default |}.

(** [layer.tween(t)] *)
Definition layer_set_tween (t : tweened_transform) (l : layer) : layer :=
  {| state_ := state_ l; tween_ := t |}.

End model.

(** The member functions of [layer], of [write_frame_consumer] and of the
    interaction types that the stage calls, and the order in which
    [tbb::parallel_for_each] serves a range: some rearrangement of it. *)
Class Collaborators {values : Values} := {
  layer_receive : layer → video_format_desc → layer * outcome (draw_frame * draw_frame);
  layer_receive_background : layer → layer * outcome draw_frame;
  layer_has_background : layer → bool;
  layer_collides : layer → coord → coord → bool;
  layer_on_interaction : layer → interaction_event → layer * outcome unit;
  auto_play_delta : auto_play_delta_t;
  layer_load : frame_producer → bool → auto_play_delta_t → layer → layer;
  layer_pause : layer → layer;
  layer_resume : layer → layer;
  layer_play : layer → layer;
  layer_preview : layer → layer;
  layer_stop : layer → layer;
  consumer_send : write_frame_consumer → draw_frame → outcome unit;
  translate : coord → coord → frame_transform → coord * coord;
  event_position : interaction_event → coord * coord;
  parallel_order : ∀ A : Type, list A → list A;
  parallel_order_perm : ∀ (A : Type) (xs : list A), parallel_order A xs ≡ₚ xs;
}.
Global Arguments parallel_order {_ _ _} _.

(** ** The state of a stage *)

(** [monitor::message]: the path of an event published on the stage's
    monitor subject, [/layer/<index>/event/<name>] or [/event/<name>]
    or [/profiler/time] (payloads are left out). *)
Inductive monitor_message :=
  | layer_message (index : Z) (name : string)
  | stage_message (name : string)
  | profiler_time_message.

Section stage.
Context {values : Values} {ops : Collaborators}.

Definition layer_consumer_entry : Type := frame_consumer_mode * write_frame_consumer.

(** [stage::impl]. A [void*] token is the integer value of the pointer.
    The last three fields are not members of the class: they record what
    the stage did to its surroundings, in order: the frames passed to
    [write_frame_consumer::send], the events handed to a layer, and the
    exceptions written to the log. *)
Record impl := {
  channel_index_ : Z;
  layers_ : gmap Z layer;
  layer_consumers_ : gmap Z (gmap Z layer_consumer_entry);
  aggregator_ : list interaction_event;
  monitor_subject_ : list monitor_message;
  sent_ : list (write_frame_consumer * draw_frame);
  delivered_ : list (Z * interaction_event);
  log_ : list exception;
}.

Definition set_layers (f : gmap Z layer → gmap Z layer) (s : impl) : impl :=
  {| channel_index_ := channel_index_ s; layers_ := f (layers_ s);
     layer_consumers_ := layer_consumers_ s; aggregator_ := aggregator_ s;
     monitor_subject_ := monitor_subject_ s; sent_ := sent_ s;
     delivered_ := delivered_ s; log_ := log_ s |}.

Definition set_layer_consumers
    (f : gmap Z (gmap Z layer_consumer_entry) → gmap Z (gmap Z layer_consumer_entry))
    (s : impl) : impl :=
  {| channel_index_ := channel_index_ s; layers_ := layers_ s;
     layer_consumers_ := f (layer_consumers_ s); aggregator_ := aggregator_ s;
     monitor_subject_ := monitor_subject_ s; sent_ := sent_ s;
     delivered_ := delivered_ s; log_ := log_ s |}.

Definition set_aggregator (f : list interaction_event → list interaction_event)
    (s : impl) : impl :=
  {| channel_index_ := channel_index_ s; layers_ := layers_ s;
     layer_consumers_ := layer_consumers_ s; aggregator_ := f (aggregator_ s);
     monitor_subject_ := monitor_subject_ s; sent_ := sent_ s;
     delivered_ := delivered_ s; log_ := log_ s |}.

(** [*monitor_subject_ << m] *)
Definition publish (m : monitor_message) (s : impl) : impl :=
  {| channel_index_ := channel_index_ s; layers_ := layers_ s;
     layer_consumers_ := layer_consumers_ s; aggregator_ := aggregator_ s;
     monitor_subject_ := monitor_subject_ s ++ [m]; sent_ := sent_ s;
     delivered_ := delivered_ s; log_ := log_ s |}.

Definition record_sent (c : write_frame_consumer) (f : draw_frame) (s : impl) : impl :=
  {| channel_index_ := channel_index_ s; layers_ := layers_ s;
     layer_consumers_ := layer_consumers_ s; aggregator_ := aggregator_ s;
     monitor_subject_ := monitor_subject_ s; sent_ := sent_ s ++ [(c, f)];
     delivered_ := delivered_ s; log_ := log_ s |}.

Definition record_delivered (index : Z) (e : interaction_event) (s : impl) : impl :=
  {| channel_index_ := channel_index_ s; layers_ := layers_ s;
     layer_consumers_ := layer_consumers_ s; aggregator_ := aggregator_ s;
     monitor_subject_ := monitor_subject_ s; sent_ := sent_ s;
     delivered_ := delivered_ s ++ [(index, e)]; log_ := log_ s |}.

(** [CASPAR_LOG_CURRENT_EXCEPTION()] *)
Definition log_current_exception (e : exception) (s : impl) : impl :=
  {| channel_index_ := channel_index_ s; layers_ := layers_ s;
     layer_consumers_ := layer_consumers_ s; aggregator_ := aggregator_ s;
     monitor_subject_ := monitor_subject_ s; sent_ := sent_ s;
     delivered_ := delivered_ s; log_ := log_ s ++ [e] |}.

(** [impl(channel_index, graph)] *)
Definition impl_new (channel_index : Z) : impl :=
  {| channel_index_ := channel_index; layers_ := ∅; layer_consumers_ := ∅;
     aggregator_ := []; monitor_subject_ := []; sent_ := []; delivered_ := [];
     log_ := [] |}.

(** [get_layer(index)]: the layer at [index], inserted as [layer(index)]
    when the table has none. The result is the table after the call and the
    layer the returned reference designates; [put_layer] is a write through
    that reference. *)
Definition get_layer (index : Z) (s : impl) : impl * layer :=
  match layers_ s !! index with
  | Some l => (s, l)
  | None =>
      let l := layer_new (Some index) in
      (set_layers (λ m, <[index := l]> m) s, l)
  end.

Definition put_layer (index : Z) (l : layer) (s : impl) : impl :=
  set_layers (λ m, <[index := l]> m) s.

(** [get_layer(index).op()] *)
Definition on_layer (index : Z) (op : layer → layer) (s : impl) : impl :=
  let '(s1, l) := get_layer index s in put_layer index (op l) s1.

(** ** The commands, as they run on the executor *)

(** [stage::transform_func_t] is a [std::function]: a call of it may
    throw. *)
Definition transform_func_t : Type := frame_transform → outcome frame_transform.
Definition transform_tuple_t : Type := Z * transform_func_t * N * tweener.

(** The body of the loop of [apply_transforms]. The function is called
    after [get_layer]; when it throws, the layer keeps its tween. *)
Definition apply_transforms_entry (transform : transform_tuple_t) : eff impl unit :=
  λ s, let '(index, f, mix_duration, tw) := transform in
       let '(s1, layer) := get_layer index s in
       let tween := tween_ layer in
       let src := fetch tween in
       match f (dest tween) with
       | returns dst =>
           (put_layer index
              (layer_set_tween (tweened_transform_new src dst mix_duration tw) layer) s1,
            returns ())
       | throws e => (s1, throws e)
       end.

(** The closure of [apply_transforms]: an exception of a function leaves
    the loop, and the closure, at that entry. *)
Definition apply_transforms_task (transforms : list transform_tuple_t) : eff impl unit :=
  for_each apply_transforms_entry transforms.

(** The closure of [apply_transform]. *)
Definition apply_transform_task (index : Z) (transform : transform_func_t)
    (mix_duration : N) (tw : tweener) : eff impl unit :=
  λ s, let '(s1, layer) := get_layer index s in
       let src := fetch (tween_ layer) in
       match transform src with
       | returns dst =>
           (put_layer index
              (layer_set_tween (tweened_transform_new src dst mix_duration tw) layer) s1,
            returns ())
       | throws e => (s1, throws e)
       end.

(** The closures of [clear_transforms(index)] and [clear_transforms()]. *)
Definition clear_transforms_task (index : Z) (s : impl) : impl :=
  on_layer index (layer_set_tween tweened_transform_default) s.

Definition clear_all_transforms_task (s : impl) : impl :=
  set_layers (fmap (layer_set_tween tweened_transform_default)) s.

(** The closure of [get_current_transform]; the transform is what the
    future yields. *)
Definition get_current_transform_task (index : Z) (s : impl) : impl * frame_transform :=
  let '(s1, layer) := get_layer index s in (s1, fetch (tween_ layer)).

Definition load_task (index : Z) (producer : frame_producer) (preview : bool) (s : impl)
  : impl :=
  on_layer index (layer_load producer preview auto_play_delta) s.

Definition pause_task (index : Z) : impl → impl := on_layer index layer_pause.
Definition resume_task (index : Z) : impl → impl := on_layer index layer_resume.
Definition play_task (index : Z) : impl → impl := on_layer index layer_play.
Definition preview_task (index : Z) : impl → impl := on_layer index layer_preview.
Definition stop_task (index : Z) : impl → impl := on_layer index layer_stop.

(** The closures of [clear(index)] and [clear()]. *)
Definition clear_task (index : Z) (s : impl) : impl := set_layers (delete index) s.
Definition clear_all_task (s : impl) : impl := set_layers (λ _, ∅) s.

(** The closure of the intra-stage [swap_layer]. Both references stay
    valid, and designate the same layer when the two indices are equal. *)
Definition swap_layer_task (index other_index : Z) (swap_transforms : bool) (s : impl)
  : impl :=
  let '(s1, layer) := get_layer index s in
  let '(s2, other_layer) := get_layer other_index s1 in
  (* std::swap(layer, other_layer) *)
  let s3 := put_layer other_index layer (put_layer index other_layer s2) in
  if swap_transforms then s3
  else
    (* std::swap(layer.tween(), other_layer.tween()) *)
    put_layer other_index (layer_set_tween (tween_ other_layer) layer)
      (put_layer index (layer_set_tween (tween_ layer) other_layer) s3).

(** The closures of [add_layer_consumer] and [remove_layer_consumer].
    [std::map::insert] keeps the entry of a token that is already there. *)
Definition add_layer_consumer_task (token : Z) (layer : Z) (mode : frame_consumer_mode)
    (layer_consumer : write_frame_consumer) (s : impl) : impl :=
  set_layer_consumers
    (λ lc, let lc1 := subscript ∅ layer lc in
           let layer_map := default ∅ (lc1 !! layer) in
           <[layer := match layer_map !! token with
                      | Some _ => layer_map
                      | None => <[token := (mode, layer_consumer)]> layer_map
                      end]> lc1) s.

Definition remove_layer_consumer_task (token : Z) (layer : Z) (s : impl) : impl :=
  set_layer_consumers
    (λ lc, let lc1 := subscript ∅ layer lc in
           let layer_map := delete token (default ∅ (lc1 !! layer)) in
           if decide (layer_map = ∅) then delete layer lc1
           else <[layer := layer_map]> lc1) s.

(** The closure of [on_interaction]: [aggregator_.offer(event)]. *)
Definition on_interaction_task (event : interaction_event) (s : impl) : impl :=
  set_aggregator (λ q, q ++ [event]) s.

(** ** The interaction hit test *)

(** The loop of [collission_detect] over the layers in the order given,
    which is the reversed table. Besides the target it yields the indices
    of the layers whose transform it fetched, in the order of the visits.
    The target's sink is the layer itself, named by its index. *)
Fixpoint collission_scan (x y : coord) (layers : list (Z * layer))
  : list Z * option (frame_transform * Z) :=
  match layers with
  | [] => ([], None)
  | (index, layer) :: rest =>
      let transform := fetch (tween_ layer) in
      let translated := translate x y transform in
      if coord_le coord_zero translated.1 && coord_le translated.1 coord_one &&
         coord_le coord_zero translated.2 && coord_le translated.2 coord_one &&
         layer_collides layer translated.1 translated.2
      then ([index], Some (transform, index))
      else let '(visited, target) := collission_scan x y rest in
           (index :: visited, target)
  end.

Definition collission_detect (x y : coord) (s : impl) : option (frame_transform * Z) :=
  (collission_scan x y (reverse (items_asc (layers_ s)))).2.

Definition collission_visited (x y : coord) (s : impl) : list Z :=
  (collission_scan x y (reverse (items_asc (layers_ s)))).1.

(** Modelled from the spec: [interaction_aggregator::translate_and_send]
    (interaction_aggregator.h is not part of the sources at hand). Each
    buffered event is taken from the buffer in the order of arrival and
    hit-tested with the stage's [collission_detect]; on a hit the event is
    handed to that layer, otherwise it is dropped. *)
Definition deliver (index : Z) (event : interaction_event) : eff impl unit :=
  λ s, match layers_ s !! index with
       | Some l =>
           let '(l', r) := layer_on_interaction l event in
           (put_layer index l' (record_delivered index event s), r)
       | None => (s, returns ())
       end.

Definition handle_event (event : interaction_event) : eff impl unit :=
  λ s, let '(x, y) := event_position event in
       match collission_detect x y s with
       | Some (_, index) => deliver index event s
       | None => (s, returns ())
       end.

Fixpoint flush_events (events : list interaction_event) : eff impl unit :=
  match events with
  | [] => ret ()
  | event :: rest =>
      (λ s, handle_event event (set_aggregator (λ _, rest) s)) ;; flush_events rest
  end.

Definition translate_and_send : eff impl unit :=
  λ s, flush_events (aggregator_ s) s.

(** ** The render pass *)

(** The state of a pass: the stage and the local map [frames]. *)
Definition pass_state : Type := impl * gmap Z draw_frame.

Definition on_impl {A} (m : eff impl A) : eff pass_state A :=
  λ '(s, frames), let '(s', r) := m s in ((s', frames), r).

Definition read_impl {A} (f : impl → A) : eff pass_state A :=
  λ '(s, frames), ((s, frames), returns (f s)).

(** A call of a member function of [layers_[index]]. *)
Definition call_layer {A} (index : Z) (op : layer → layer * outcome A) : eff impl A :=
  λ s, let '(l, r) := op (default (layer_new None) (layers_ s !! index)) in
       (put_layer index l s, r).

(** [tbb::parallel_for_each(xs.begin(), xs.end(), f)]: the items are
    served one after the other in the order the scheduler picks; the first
    exception ends the loop and is rethrown to the caller. *)
Definition parallel_for_each {S A} (f : A → eff S unit) (xs : list A) : eff S unit :=
  for_each f (parallel_order xs).

(** [c.second->send(frame)] *)
Definition send (c : write_frame_consumer) (frame : draw_frame) : eff impl unit :=
  λ s, (record_sent c frame s, consumer_send c frame).

Definition draw (index : Z) (format_desc : video_format_desc) : eff pass_state unit :=
  (* auto& layer = layers_[index]; auto& consumers = layer_consumers_[index]; *)
  on_impl (λ s, (set_layer_consumers (subscript ∅ index)
                   (set_layers (subscript (layer_new None) index) s), returns ())) ;;
  let! frame := on_impl (call_layer index (λ l, layer_receive l format_desc)) in
  let! consumers := read_impl (λ s, default ∅ (layer_consumers_ s !! index)) in
  (if decide (consumers = ∅) then ret ()
   else
     let consumer_it := values_asc consumers in
     let any_bg_consumers :=
       existsb (λ c : layer_consumer_entry, bool_decide (c.1 ≠ foreground)) consumer_it in
     let! frame_bg :=
       (if any_bg_consumers then on_impl (call_layer index layer_receive_background)
        else ret draw_frame_empty) in
     let! has_bg :=
       (if any_bg_consumers
        then read_impl (λ s, layer_has_background
                               (default (layer_new None) (layers_ s !! index)))
        else ret false) in
     on_impl (parallel_for_each
       (λ c : layer_consumer_entry,
          if bool_decide (c.1 = background) ||
             (bool_decide (c.1 = next_producer) && has_bg)
          then send c.2 frame_bg
          else send c.2 frame.1)
       consumer_it)) ;;
  (* frames[index] = frame.second; *)
  (λ '(s, frames), ((s, <[index := frame.2]> frames), returns ())).

(** The two loops that fill [frames], [layer_consumers_] and [indices]
    before anything is drawn. *)
Definition seed : Type :=
  gmap Z draw_frame * gmap Z (gmap Z layer_consumer_entry) * list Z.

Definition seed_layer (acc : seed) (index : Z) : seed :=
  let '(frames, lc, indices) := acc in
  (<[index := draw_frame_empty]> frames, subscript ∅ index lc, indices ++ [index]).

Definition seed_consumers (acc : seed) (consumers : Z * gmap Z layer_consumer_entry)
  : seed :=
  let '(frames, lc, indices) := acc in
  if decide (consumers.2 = ∅) then acc
  else if decide (consumers.1 ∈ indices) then acc
  else (<[consumers.1 := draw_frame_empty]> frames, subscript ∅ consumers.1 lc,
        indices ++ [consumers.1]).

(** The body of the [try] block of [operator()]; [frames] is empty when it
    starts. *)
Definition try_block (format_desc : video_format_desc) : eff pass_state unit :=
  λ '(s, frames),
    let '(frames1, lc1, indices1) :=
      foldl seed_layer (frames, layer_consumers_ s, []) (keys_asc (layers_ s)) in
    let '(frames2, lc2, indices) :=
      foldl seed_consumers (frames1, lc1, indices1) (items_asc lc1) in
    (on_impl translate_and_send ;;
     parallel_for_each (λ index, draw index format_desc) indices)
      (set_layer_consumers (λ _, lc2) s, frames2).

(** The closure of [operator()(format_desc)]. *)
Definition operator_call_task (format_desc : video_format_desc)
  : eff impl (gmap Z draw_frame) :=
  λ s,
    let '((s2, frames), r) := try_block format_desc (s, ∅) in
    match r with
    | returns _ => (s2, returns frames)
    | throws e =>
        (* catch (...) { layers_.clear(); CASPAR_LOG_CURRENT_EXCEPTION(); } *)
        (log_current_exception e (set_layers (λ _, ∅) s2), returns frames)
    end.

(** ** Swaps between two stages *)

(** The loop body of the tween swap-back in [swap_layers]:
    [std::swap(get_layer(index).tween(), other_impl->get_layer(index).tween())];
    [a] is this stage and [b] the other one. *)
Definition swap_tweens_back (acc : impl * impl) (index : Z) : impl * impl :=
  let '(a, b) := acc in
  let '(a1, la) := get_layer index a in
  let '(b1, lb) := get_layer index b in
  (put_layer index (layer_set_tween (tween_ lb) la) a1,
   put_layer index (layer_set_tween (tween_ la) lb) b1).

(** [func] of [swap_layers] on this stage [a] and the other stage [b], two
    different objects. [layer_ids] is a [std::set<int>]: ascending, without
    duplicates. The monitor re-parenting is left out. *)
Definition swap_layers_func (swap_transforms : bool) (a b : impl) : impl * impl :=
  (* std::swap(layers_, other_impl->layers_) *)
  let a1 := set_layers (λ _, layers_ b) a in
  let b1 := set_layers (λ _, layers_ a) b in
  if swap_transforms then (a1, b1)
  else
    let layer_ids := merge_sort Z.le (elements (dom (layers_ a1) ∪ dom (layers_ b1))) in
    foldl swap_tweens_back (a1, b1) layer_ids.

(** [func] of the cross-stage [swap_layer]. *)
Definition swap_layer_func (index other_index : Z) (swap_transforms : bool) (a b : impl)
  : impl * impl :=
  let '(a1, my_layer) := get_layer index a in
  let '(b1, other_layer) := get_layer other_index b in
  (* std::swap(my_layer, other_layer) *)
  if swap_transforms
  then (put_layer index other_layer a1, put_layer other_index my_layer b1)
  else
    (* std::swap(my_tween, other_tween) *)
    (put_layer index (layer_set_tween (tween_ my_layer) other_layer) a1,
     put_layer other_index (layer_set_tween (tween_ other_layer) my_layer) b1).

(** ** Stages as shared objects, executors and futures *)

(** A [std::shared_ptr<stage>] is the address of the [impl] it owns. A
    closure given to an executor acts on the objects it captured. *)
Definition closure : Type := gmap positive impl → gmap positive impl.

Inductive task_priority := high_priority | higher_priority.

(** Modelled from the spec: [executor] (common/executor.h is not part of the
    sources at hand). One FIFO of closures per stage with two priority
    bands; the worker drains the higher band first. *)
Record world := {
  objects : gmap positive impl;
  executors : gmap positive (list (task_priority * closure));
}.

(** Modelled from the spec: the completion handle ([std::future<void>];
    common/future.h is not part of the sources at hand). It is either ready
    when it is made ([make_ready_future()]) or becomes ready when the
    closure queued under [ticket] on [executor] has run. *)
Inductive future :=
  | make_ready_future
  | queued (executor : positive) (ticket : nat).

Definition pending (w : world) (this : positive) : list (task_priority * closure) :=
  default [] (executors w !! this).

(** [executor_.begin_invoke(f, priority)] on the executor of [this]. *)
Definition begin_invoke (this : positive) (f : closure) (priority : task_priority)
    (w : world) : world * future :=
  ({| objects := objects w;
      executors := <[this := pending w this ++ [(priority, f)]]> (executors w) |},
   queued this (length (pending w this))).

(** [executor.invoke(f, priority)] called from the worker of another
    executor: that worker waits until [f] has run on this one, so for the
    waiting closure the call is [f] itself. *)
Definition invoke (executor : positive) (f : closure) (priority : task_priority)
  : closure := f.

(** The worker of [this] runs everything that is queued. *)
Definition is_higher (t : task_priority * closure) : bool :=
  match t.1 with higher_priority => true | high_priority => false end.

Definition run_executor (this : positive) (w : world) : world :=
  let q := pending w this in
  {| objects := foldl (λ h (t : task_priority * closure), t.2 h) (objects w)
                  (filter (λ t, is_higher t = true) q ++
                   filter (λ t, is_higher t = false) q);
     executors := <[this := []]> (executors w) |}.

(** A closure that acts on the members of [this]. *)
Definition on_this (this : positive) (f : impl → impl) : closure := alter f this.

(** A closure that acts on the members of [this] and of [other_impl]. *)
Definition on_both (this other : positive) (f : impl → impl → impl * impl) : closure :=
  λ h, match h !! this, h !! other with
       | Some a, Some b => let '(a', b') := f a b in <[other := b']> (<[this := a']> h)
       | _, _ => h
       end.

Definition publish_on (this : positive) (m : monitor_message) (w : world) : world :=
  {| objects := alter (publish m) this (objects w); executors := executors w |}.

Definition channel_index_of (w : world) (p : positive) : Z :=
  default 0 (channel_index_ <$> objects w !! p).

(** ** The member functions of [stage::impl]

    A member function that queues a closure returns the handle of the
    closure; an exception of the closure is kept in the handle, and the
    stage is left as it was at the throw. *)

Definition apply_transforms (this : positive) (transforms : list transform_tuple_t)
    (w : world) : world * future :=
  begin_invoke this (on_this this (λ s, (apply_transforms_task transforms s).1))
    high_priority w.

Definition apply_transform (this : positive) (index : Z) (transform : transform_func_t)
    (mix_duration : N) (tw : tweener) (w : world) : world * future :=
  begin_invoke this
    (on_this this (λ s, (apply_transform_task index transform mix_duration tw s).1))
    high_priority w.

Definition load (this : positive) (index : Z) (producer : frame_producer)
    (preview auto_play : bool) (w : world) : world * future :=
  begin_invoke this (on_this this (load_task index producer preview)) high_priority
    (publish_on this (layer_message index "load") w).

Definition clear (this : positive) (index : Z) (w : world) : world * future :=
  begin_invoke this (on_this this (clear_task index)) high_priority
    (publish_on this (layer_message index "clear") w).

Definition clear_all (this : positive) (w : world) : world * future :=
  begin_invoke this (on_this this clear_all_task) high_priority
    (publish_on this (stage_message "clear") w).

Definition invoke_both (this other : positive) (func : closure) (w : world)
  : world * future :=
  if channel_index_of w other <? channel_index_of w this
  then begin_invoke other (invoke this func high_priority) high_priority w
  else begin_invoke this (invoke other func high_priority) high_priority w.

Definition swap_layers (this other : positive) (swap_transforms : bool) (w : world)
  : world * future :=
  if decide (other = this) then (w, make_ready_future)
  else
    invoke_both this other (on_both this other (swap_layers_func swap_transforms))
      (publish_on this (stage_message "swap") w).

Definition swap_layer (this : positive) (index other_index : Z) (swap_transforms : bool)
    (w : world) : world * future :=
  begin_invoke this (on_this this (swap_layer_task index other_index swap_transforms))
    high_priority (publish_on this (layer_message index "swap") w).

Definition swap_layer_with (this : positive) (index other_index : Z) (other : positive)
    (swap_transforms : bool) (w : world) : world * future :=
  let w1 := publish_on this (layer_message index "swaptransforms") w in
  if decide (other = this) then swap_layer this index other_index swap_transforms w1
  else
    invoke_both this other
      (on_both this other (swap_layer_func index other_index swap_transforms)) w1.

Definition add_layer_consumer (this : positive) (token : Z) (layer : Z)
    (mode : frame_consumer_mode) (layer_consumer : write_frame_consumer) (w : world)
  : world :=
  publish_on this (stage_message "add")
    (begin_invoke this (on_this this (add_layer_consumer_task token layer mode layer_consumer))
       high_priority w).1.

Definition remove_layer_consumer (this : positive) (token : Z) (layer : Z) (w : world)
  : world :=
  publish_on this (stage_message "remove")
    (begin_invoke this (on_this this (remove_layer_consumer_task token layer))
       high_priority w).1.

Definition clear_transforms (this : positive) (index : Z) (w : world) : world * future :=
  begin_invoke this (on_this this (clear_transforms_task index)) high_priority w.

Definition clear_all_transforms (this : positive) (w : world) : world * future :=
  begin_invoke this (on_this this clear_all_transforms_task) high_priority w.

Definition get_current_transform (this : positive) (index : Z) (w : world)
  : world * future :=
  begin_invoke this (on_this this (λ s, (get_current_transform_task index s).1))
    high_priority w.

Definition pause (this : positive) (index : Z) (w : world) : world * future :=
  begin_invoke this (on_this this (pause_task index)) high_priority
    (publish_on this (layer_message index "pause") w).

Definition resume (this : positive) (index : Z) (w : world) : world * future :=
  begin_invoke this (on_this this (resume_task index)) high_priority
    (publish_on this (layer_message index "resume") w).

Definition play (this : positive) (index : Z) (w : world) : world * future :=
  begin_invoke this (on_this this (play_task index)) high_priority
    (publish_on this (layer_message index "play") w).

Definition preview (this : positive) (index : Z) (w : world) : world * future :=
  begin_invoke this (on_this this (preview_task index)) high_priority w.

Definition stop (this : positive) (index : Z) (w : world) : world * future :=
  begin_invoke this (on_this this (stop_task index)) high_priority
    (publish_on this (layer_message index "stop") w).

(** [foreground(index)], [background(index)], [info(index)],
    [delay_info(index)] and [call(index, params)]: each queues a closure
    that reads a member of [get_layer(index)]; what the future yields is
    left out. *)
Definition query (this : positive) (index : Z) (w : world) : world * future :=
  begin_invoke this (on_this this (λ s, (get_layer index s).1)) high_priority w.

Definition on_interaction (this : positive) (event : interaction_event) (w : world)
  : world :=
  (begin_invoke this (on_this this (on_interaction_task event)) high_priority w).1.

(** [operator()]: [executor_.invoke] at [higher_priority] runs the closure
    ahead of every queued command and waits for its result; then the
    [/profiler/time] message is published. The timer, the graph and the
    performance warning in the log file are left out. *)
Definition operator_call (this : positive) (format_desc : video_format_desc)
  : eff world (gmap Z draw_frame) :=
  λ w, match objects w !! this with
       | Some s =>
           let '(s', r) := operator_call_task format_desc s in
           ({| objects := <[this := publish profiler_time_message s']> (objects w);
               executors := executors w |}, r)
       | None => (w, returns ∅)
       end.

(** [stage::execute(func)]: [func(); return make_ready_future();] *)
Definition execute (this : positive) (func : eff world unit) : eff world future :=
  func ;; ret make_ready_future.

End stage.

(** * The vocabulary of the properties *)

Section vocabulary.
Context {values : Values} {ops : Collaborators}.
Implicit Types (s : impl) (p : pass_state) (w : world).

(** The indices a pass draws: the layers, and the indices whose consumer
    map is not empty. *)
Definition active s : gset Z :=
  dom (layers_ s) ∪ dom (filter (λ kv, kv.2 ≠ ∅) (layer_consumers_ s)).

(** Every key of the consumer table has a consumer. *)
Definition routes_nonempty s : Prop :=
  ∀ k m, layer_consumers_ s !! k = Some m → m ≠ ∅.

(** The stages that [add_layer_consumer], [load], [clear(index)] and
    [clear()] make of a new stage. *)
Inductive reachable (channel_index : Z) : impl → Prop :=
  | reachable_new : reachable channel_index (impl_new channel_index)
  | reachable_add_route s token layer mode consumer :
      reachable channel_index s →
      reachable channel_index (add_layer_consumer_task token layer mode consumer s)
  | reachable_load s index producer preview :
      reachable channel_index s →
      reachable channel_index (load_task index producer preview s)
  | reachable_clear s index :
      reachable channel_index s → reachable channel_index (clear_task index s)
  | reachable_clear_all s :
      reachable channel_index s → reachable channel_index (clear_all_task s).

(** After a pass every index that came with consumers is a layer. *)
Definition pass_populates_layers (format_desc : video_format_desc) s : Prop :=
  ∀ k m, layer_consumers_ s !! k = Some m → m ≠ ∅ →
         k ∈ dom (layers_ (operator_call_task format_desc s).1).

(** After a pass every index that came as a layer has an entry in the
    consumer table. *)
Definition pass_touches_consumers (format_desc : video_format_desc) s : Prop :=
  ∀ k, k ∈ dom (layers_ s) →
       k ∈ dom (layer_consumers_ (operator_call_task format_desc s).1).

(** Both of them. *)
Definition pass_populates_tables (format_desc : video_format_desc) s : Prop :=
  pass_populates_layers format_desc s ∧ pass_touches_consumers format_desc s.

(** The frame a consumer is to get when the pass draws the layer [l0]:
    for [background] the frame of [receive_background], for [next_producer]
    that frame when the layer has a background and the raw foreground frame
    otherwise, for [foreground] the raw frame of [receive]. *)
Definition route_frame_ok (format_desc : video_format_desc) (l0 : layer)
    (entry : layer_consumer_entry) (sent : write_frame_consumer * draw_frame) : Prop :=
  sent.1 = entry.2 ∧
  ∃ l1 raw transformed,
    layer_receive l0 format_desc = (l1, returns (raw, transformed)) ∧
    match entry.1 with
    | foreground => sent.2 = raw
    | background => ∃ l2, layer_receive_background l1 = (l2, returns sent.2)
    | next_producer =>
        ∃ l2 bg, layer_receive_background l1 = (l2, returns bg) ∧
                 sent.2 = if layer_has_background l2 then bg else raw
    end.

(** The event at [(x, y)] hits the layer: projected through the layer's
    current transform the point lies in the unit square, and the layer's
    producer reports a collision there. *)
Definition hits (x y : coord) (l : layer) : bool :=
  let p := translate x y (fetch (tween_ l)) in
  coord_le coord_zero p.1 && coord_le p.1 coord_one &&
  coord_le coord_zero p.2 && coord_le p.2 coord_one &&
  layer_collides l p.1 p.2.

(** The closures that the commands of [stage::impl] queue on its own
    executor, the render pass apart; [run_command] is the stage that the
    closure leaves, whether it returns or throws. [query] stands for the
    commands that only read a layer ([foreground], [background],
    [info(index)], [delay_info(index)], [call]): they too go through
    [get_layer]. *)
Inductive command :=
  | apply_transforms_command (transforms : list transform_tuple_t)
  | apply_transform_command (index : Z) (transform : transform_func_t)
      (mix_duration : N) (tw : tweener)
  | clear_transforms_command (index : Z)
  | clear_all_transforms_command
  | get_current_transform_command (index : Z)
  | load_command (index : Z) (producer : frame_producer) (preview : bool)
  | pause_command (index : Z)
  | resume_command (index : Z)
  | play_command (index : Z)
  | preview_command (index : Z)
  | stop_command (index : Z)
  | clear_command (index : Z)
  | clear_all_command
  | swap_layer_command (index other_index : Z) (swap_transforms : bool)
  | add_layer_consumer_command (token layer : Z) (mode : frame_consumer_mode)
      (consumer : write_frame_consumer)
  | remove_layer_consumer_command (token layer : Z)
  | query_command (index : Z)
  | on_interaction_command (event : interaction_event).

Definition run_command (c : command) (s : impl) : impl :=
  match c with
  | apply_transforms_command transforms => (apply_transforms_task transforms s).1
  | apply_transform_command index transform mix_duration tw =>
      (apply_transform_task index transform mix_duration tw s).1
  | clear_transforms_command index => clear_transforms_task index s
  | clear_all_transforms_command => clear_all_transforms_task s
  | get_current_transform_command index => (get_current_transform_task index s).1
  | load_command index producer preview => load_task index producer preview s
  | pause_command index => pause_task index s
  | resume_command index => resume_task index s
  | play_command index => play_task index s
  | preview_command index => preview_task index s
  | stop_command index => stop_task index s
  | clear_command index => clear_task index s
  | clear_all_command => clear_all_task s
  | swap_layer_command index other_index swap_transforms =>
      swap_layer_task index other_index swap_transforms s
  | add_layer_consumer_command token layer mode consumer =>
      add_layer_consumer_task token layer mode consumer s
  | remove_layer_consumer_command token layer => remove_layer_consumer_task token layer s
  | query_command index => (get_layer index s).1
  | on_interaction_command event => on_interaction_task event s
  end.

(** The layer [get_layer] finds or makes at an index. *)
Definition layer_or_new (m : gmap Z layer) (i : Z) : layer :=
  default (layer_new (Some i)) (m !! i).

(** A stage keeps its tweens: at every index it had a layer, the tween is
    the one that was there. *)
Definition tweens_kept (before after : gmap Z layer) : Prop :=
  ∀ i l, before !! i = Some l → tween_ <$> after !! i = Some (tween_ l).

(** A stage has its layers back, and a new placeholder layer at every index
    that only the other stage had. *)
Definition restored_with_placeholders (before after other : gmap Z layer) : Prop :=
  ∀ i, after !! i =
         match before !! i with
         | Some l => Some l
         | None => if decide (i ∈ dom other) then Some (layer_new (Some i)) else None
         end.

(** The call [op] of a swap with the stage itself as the other stage is a
    no-op: its handle is ready, and once the executor of the stage has run
    the stage has the layers (with their tweens) and the routes it had. *)
Definition self_swap_is_noop (op : world → world * future) (this : positive) w : Prop :=
  (op w).2 = make_ready_future ∧
  layers_ <$> objects (run_executor this (op w).1) !! this = layers_ <$> objects w !! this ∧
  layer_consumers_ <$> objects (run_executor this (op w).1) !! this =
    layer_consumers_ <$> objects w !! this.

(** Between two points of a pass the log is the same, and no layer and no
    entry of the consumer table has gone. *)
Record grows_impl (s s' : impl) : Prop := {
  grows_log : log_ s' = log_ s;
  grows_layers : dom (layers_ s) ⊆ dom (layers_ s');
  grows_consumers : layer_consumers_ s ⊆ layer_consumers_ s';
}.

(** The same for the stage of a pass, whose [frames] only gains keys, all
    of them in [X]. *)
Record grows (X : gset Z) (p p' : pass_state) : Prop := {
  grows_stage : grows_impl p.1 p'.1;
  grows_frames : dom p.2 ⊆ dom p'.2;
  grows_within : dom p'.2 ⊆ dom p.2 ∪ X;
}.


(** What the functions of a batch of [apply_transforms] make of the
    destination [d] of the tween at the index [i], one after the other;
    nothing when one of them throws. *)
Fixpoint compose_dest (i : Z) (transforms : list transform_tuple_t) (d : frame_transform)
  : option frame_transform :=
  match transforms with
  | [] => Some d
  | transform :: rest =>
      if decide (transform.1.1.1 = i)
      then match transform.1.1.2 d with
           | returns d' => compose_dest i rest d'
           | throws _ => None
           end
      else compose_dest i rest d
  end.

(** The monitor messages that the member function of a command publishes
    when it is called. *)
Definition messages (c : command) : list monitor_message :=
  match c with
  | load_command index _ _ => [layer_message index "load"]
  | pause_command index => [layer_message index "pause"]
  | resume_command index => [layer_message index "resume"]
  | play_command index => [layer_message index "play"]
  | stop_command index => [layer_message index "stop"]
  | clear_command index => [layer_message index "clear"]
  | clear_all_command => [stage_message "clear"]
  | swap_layer_command index _ _ => [layer_message index "swap"]
  | add_layer_consumer_command _ _ _ _ => [stage_message "add"]
  | remove_layer_consumer_command _ _ => [stage_message "remove"]
  | _ => []
  end.

(** The call of the member function of a command on the stage [this]; the
    handle is dropped. The flag [auto_play] of [load] is not read. *)
Definition submit (this : positive) (c : command) w : world :=
  match c with
  | apply_transforms_command transforms => (apply_transforms this transforms w).1
  | apply_transform_command index transform mix_duration tw =>
      (apply_transform this index transform mix_duration tw w).1
  | clear_transforms_command index => (clear_transforms this index w).1
  | clear_all_transforms_command => (clear_all_transforms this w).1
  | get_current_transform_command index => (get_current_transform this index w).1
  | load_command index producer preview => (load this index producer preview false w).1
  | pause_command index => (pause this index w).1
  | resume_command index => (resume this index w).1
  | play_command index => (play this index w).1
  | preview_command index => (preview this index w).1
  | stop_command index => (stop this index w).1
  | clear_command index => (clear this index w).1
  | clear_all_command => (clear_all this w).1
  | swap_layer_command index other_index swap_transforms =>
      (swap_layer this index other_index swap_transforms w).1
  | add_layer_consumer_command token layer mode consumer =>
      add_layer_consumer this token layer mode consumer w
  | remove_layer_consumer_command token layer => remove_layer_consumer this token layer w
  | query_command index => (query this index w).1
  | on_interaction_command event => on_interaction this event w
  end.

(** The consumer is the target of some route of the table. *)
Definition registered (lc : gmap Z (gmap Z layer_consumer_entry))
    (c : write_frame_consumer) : Prop :=
  ∃ k m token mode, lc !! k = Some m ∧ m !! token = Some (mode, c).

(** Between two points of a pass nothing has happened outside the indices
    in [X]: the layers and the frames at the other indices are the same,
    the consumer table has the same non-empty maps, and what was sent went
    to consumers of the table. *)
Record within (X : gset Z) (p p' : pass_state) : Prop := {
  within_layers : ∀ j, j ∉ X → layers_ p'.1 !! j = layers_ p.1 !! j;
  within_frames : ∀ j, j ∉ X → p'.2 !! j = p.2 !! j;
  within_routes : ∀ k m, m ≠ ∅ →
    layer_consumers_ p'.1 !! k = Some m ↔ layer_consumers_ p.1 !! k = Some m;
  within_sent : ∃ sends,
    sent_ p'.1 = sent_ p.1 ++ sends ∧
    ∀ x, x ∈ sends → registered (layer_consumers_ p.1) x.1;
}.

(** The frame that a pass puts into its map for the layer [l]: the
    transformed frame of [l.receive(format_desc)]. *)
Definition output_of (format_desc : video_format_desc) (l : layer) : option draw_frame :=
  match (layer_receive l format_desc).2 with
  | returns frame => Some frame.2
  | throws _ => None
  end.

End vocabulary.

(** * A test bench

    One implementation of the collaborators, small enough to run: frames
    and producers are numbers (producer 0 is the empty producer, a negative
    producer fails when it is asked for a frame), a transform is a
    horizontal offset and a tween interpolates it linearly, coordinates are
    in thousandths. *)
Module bench.

#[export] Instance values : Values := {|
  frame_transform := Z;
  tweener := unit;
  draw_frame := Z;
  video_format_desc := unit;
  frame_producer := Z;
  write_frame_consumer := Z;
  interaction_event := Z * Z;
  exception := string;
  producer_state := Z * option Z;
  auto_play_delta_t := unit;
  coord := Z;
  identity_transform := 0;
  linear_tweener := ();
  tween_at := λ time src dst duration _,
    if (duration <=? time)%N then dst
    else src + (dst - src) * Z.of_N time / Z.of_N duration;
  draw_frame_empty := 0;
  coord_zero := 0;
  coord_one := 1000;
  coord_le := Z.leb;
  fresh_state := λ _, (0, None);
|}.

Definition make_layer (fg : Z) (bg : option Z) (t : tweened_transform) : layer :=
  {| state_ := (fg, bg); tween_ := t |}.

Definition still (offset : Z) : tweened_transform :=
  tweened_transform_new offset offset 0%N ().

#[export] Instance ops : Collaborators := {|
  layer_receive := λ l _,
    if (state_ l).1 <? 0 then (l, throws "producer failed"%string)
    else (l, returns ((state_ l).1, (state_ l).1 + fetch (tween_ l)));
  layer_receive_background := λ l, (l, returns (default 0 (state_ l).2));
  layer_has_background := λ l, bool_decide (is_Some (state_ l).2);
  layer_collides := λ l _ _, negb ((state_ l).1 =? 0);
  layer_on_interaction := λ l _, (l, returns ());
  auto_play_delta := ();
  layer_load := λ p preview _ l,
    make_layer (if preview then p else (state_ l).1)
               (if preview then None else Some p) (tween_ l);
  layer_pause := id;
  layer_resume := id;
  layer_play := λ l,
    match (state_ l).2 with
    | Some p => make_layer p None (tween_ l)
    | None => l
    end;
  layer_preview := id;
  layer_stop := id;
  consumer_send := λ _ _, returns ();
  translate := λ x y t, (x - t, y - t);
  event_position := id;
  parallel_order := λ _ xs, xs;
  parallel_order_perm := λ _ xs, reflexivity xs;
|}.

(** A stage with the given layers and routes and nothing else. *)
Definition stage_of (channel_index : Z) (layers : list (Z * layer))
    (routes : list (Z * list (Z * layer_consumer_entry))) : impl :=
  {| channel_index_ := channel_index;
     layers_ := list_to_map layers;
     layer_consumers_ := list_to_map (prod_map id list_to_map <$> routes);
     aggregator_ := []; monitor_subject_ := []; sent_ := []; delivered_ := [];
     log_ := [] |}.

(** ** Stages and worlds to run the properties on *)

(** Two transform functions: one moves a layer by one, the other fails. *)
Definition move_by_one : transform_func_t := λ t, returns (Z.succ t).

Definition failing_transform : transform_func_t := λ _, throws "transform failed"%string.

(** Layer 0 is half way through a tween from offset 0 to offset 10. *)
Definition mid_tween : tweened_transform :=
  {| source_ := 0; dest_ := 10; duration_ := 2; time_ := 1; tweener_ := () |}.

Definition tweening_stage : impl := stage_of 1 [(0, make_layer 11 None mid_tween)] [].

(** A stage made by commands: layer 2 loaded, a route on index 7, layer 1
    loaded and cleared again. *)
Definition routed_stage : impl :=
  clear_task 1
    (load_task 1 5 false
       (add_layer_consumer_task 100 7 foreground 1000 (load_task 2 6 false (impl_new 1)))).

(** Two stages: the first has a layer at index 0, the second has none. *)
Definition stage_a : impl := stage_of 1 [(0, make_layer 11 None (still 4))] [].

Definition stage_b : impl := stage_of 2 [] [].

Definition two_stages : gmap positive impl :=
  {[1%positive := stage_a; 2%positive := stage_b]}.

(** A world with one stage that has two layers and nothing queued. *)
Definition one_stage_world : world :=
  {| objects := {[1%positive :=
                    stage_of 1 [(0, make_layer 11 None (still 0));
                                (1, make_layer 22 None (still 0))] []]};
     executors := ∅ |}.

(** A world with the two stages and nothing queued. *)
Definition two_stage_world : world := {| objects := two_stages; executors := ∅ |}.

(** A new stage with one route, on index 7. *)
Definition one_route_stage : impl :=
  add_layer_consumer_task 100 7 foreground 1000 (impl_new 1).

(** A stage whose layer 1 has a failing producer, with a route on index 7
    and no layer there. *)
Definition failing_stage : impl :=
  stage_of 1 [(1, make_layer (-1) None (still 0)); (5, make_layer 55 None (still 0))]
             [(7, [(100, (foreground, 1000))])].

(** A stage with a layer at 5 and a route on index 7 and no layer there. *)
Definition route_only_stage : impl :=
  stage_of 1 [(5, make_layer 55 (Some 56) (still 3))]
             [(5, [(100, (background, 1000)); (101, (next_producer, 1001));
                   (102, (foreground, 1002))]);
              (7, [(100, (foreground, 1003)); (101, (next_producer, 1004))])].

(** Layers 1, 5 and 3, each covering the whole unit square. *)
Definition covering_stage : impl :=
  stage_of 1 [(1, make_layer 11 None (still 0)); (5, make_layer 55 None (still 0));
              (3, make_layer 33 None (still 0))] [].

(** A function for [execute]: it publishes whether stage 1 has a layer 0. *)
Definition report_layer_0 : eff world unit :=
  λ w, (publish_on 1
          (stage_message
             (if bool_decide (is_Some (objects w !! 1%positive ≫= λ s, layers_ s !! 0))
              then "layer 0 present" else "layer 0 absent")) w,
        returns ()).

End bench.

(** * Properties *)

(** ** Ordered iteration *)

Section ordered.
Context {A : Type}.
Implicit Types m : gmap Z A.

Lemma keys_asc_perm m : keys_asc m ≡ₚ elements (dom m).
Proof. apply merge_sort_Permutation. Qed.

Lemma elem_of_keys_asc m k : k ∈ keys_asc m ↔ is_Some (m !! k).
Proof. by rewrite keys_asc_perm, elem_of_elements, elem_of_dom. Qed.

Lemma NoDup_keys_asc m : NoDup (keys_asc m).
Proof. rewrite keys_asc_perm. apply NoDup_elements. Qed.

Lemma Sorted_keys_asc m : Sorted Z.le (keys_asc m).
Proof. apply (Sorted_merge_sort Z.le). Qed.

Lemma ascending_strict (l : list Z) :
  Sorted Z.le l → NoDup l → StronglySorted Z.lt l.
Proof.
  intros Hs%Sorted_StronglySorted; [|intros ???; lia].
  induction Hs as [|x l Hs IH Hx]; intros Hnd; [constructor|].
  apply NoDup_cons in Hnd as [Hx' Hnd].
  constructor; [by apply IH|].
  rewrite Forall_forall in Hx |- *. intros y Hy.
  specialize (Hx y Hy). assert (x ≠ y) by (intros ->; done). lia.
Qed.

Lemma keys_asc_strict m : StronglySorted Z.lt (keys_asc m).
Proof. apply ascending_strict; [apply Sorted_keys_asc|apply NoDup_keys_asc]. Qed.

Lemma elem_of_items_asc m k v : (k, v) ∈ items_asc m ↔ m !! k = Some v.
Proof.
  unfold items_asc. rewrite list_elem_of_omap. split.
  - intros (k' & _ & Hk'). destruct (m !! k') eqn:E; simplify_eq/=. done.
  - intros Hk. exists k. split; [apply elem_of_keys_asc; eauto|by rewrite Hk].
Qed.

Lemma items_keys m (l : list Z) :
  (∀ k, k ∈ l → is_Some (m !! k)) →
  (omap (λ k, (k,.) <$> m !! k) l).*1 = l.
Proof.
  induction l as [|k l IH]; intros Hl; [done|].
  destruct (Hl k) as [v Hv]; [left|]. simpl. rewrite Hv. simpl. f_equal.
  apply IH. intros k' Hk'. apply Hl. by right.
Qed.

Lemma items_asc_keys m : (items_asc m).*1 = keys_asc m.
Proof. apply items_keys. intros k. by rewrite elem_of_keys_asc. Qed.

Lemma elem_of_values_asc m (v : A) : v ∈ values_asc m ↔ ∃ k, m !! k = Some v.
Proof.
  unfold values_asc. rewrite list_elem_of_fmap. split.
  - intros ([k v'] & -> & Hkv). exists k. by apply elem_of_items_asc.
  - intros [k Hk]. exists (k, v). split; [done|]. by apply elem_of_items_asc.
Qed.

Lemma length_values_asc m : length (values_asc m) = size m.
Proof.
  unfold values_asc. rewrite length_fmap.
  rewrite <-(length_fmap fst (items_asc m)), items_asc_keys, keys_asc_perm.
  by rewrite <-size_dom.
Qed.

Lemma subscript_lookup (d : A) k m j :
  subscript d k m !! j =
    if decide (k = j) then Some (default d (m !! k)) else m !! j.
Proof.
  unfold subscript. destruct (m !! k) eqn:E; case_decide; subst; simpl.
  - by rewrite E.
  - done.
  - by rewrite lookup_insert_eq.
  - by rewrite lookup_insert_ne.
Qed.

Lemma subscript_dom (d : A) k m : dom (subscript d k m) = {[k]} ∪ dom m.
Proof.
  unfold subscript. destruct (m !! k) eqn:E.
  - apply elem_of_dom_2 in E. set_solver.
  - by rewrite dom_insert_L.
Qed.

Lemma subscript_present (d : A) k m : is_Some (m !! k) → subscript d k m = m.
Proof. intros [v Hv]. unfold subscript. by rewrite Hv. Qed.

End ordered.

(** ** Computations that may throw *)

Section effects.
Context {values : Values} {S : Type}.

Lemma bind_fst_rel {A B} (R : relation S) `{!Transitive R}
    (m : eff S A) (k : A → eff S B) s :
  R s (m s).1 → (∀ a s', R s' (k a s').1) → R s (bind m k s).1.
Proof.
  intros Hm Hk. unfold bind. destruct (m s) as [s' [a|e]]; simpl in *; [|done].
  etrans; [exact Hm|apply Hk].
Qed.

Lemma for_each_rel {A} (R : relation S) `{!PreOrder R}
    (f : A → eff S unit) (xs : list A) s :
  (∀ x s', x ∈ xs → R s' (f x s').1) → R s (for_each f xs s).1.
Proof.
  revert s. induction xs as [|x xs IH]; intros s Hf; simpl; [done|].
  apply bind_fst_rel; [apply _|apply Hf; left|].
  intros _ s'. apply IH. intros y s'' Hy. apply Hf. by right.
Qed.

(** When a loop returns, every iteration returned, and what an iteration
    establishes is still there at the end if the later ones keep it. *)
Lemma for_each_returns {A} (Q : A → S → Prop) (f : A → eff S unit) (xs : list A) s :
  (∀ x s', (f x s').2 = returns () → Q x (f x s').1) →
  (∀ x y s', Q x s' → Q x (f y s').1) →
  (for_each f xs s).2 = returns () →
  ∀ x, x ∈ xs → Q x (for_each f xs s).1.
Proof.
  intros Hest Hkeep. revert s. induction xs as [|y xs IH]; intros s Hret x Hx.
  { by apply elem_of_nil in Hx. }
  simpl in *. unfold bind in *.
  destruct (f y s) as [s' [[]|e]] eqn:E; [|done].
  apply elem_of_cons in Hx as [->|Hx].
  - assert (Q y s') as HQ by (specialize (Hest y s); rewrite E in Hest; by apply Hest).
    clear -HQ Hkeep. revert s' HQ. induction xs as [|z xs IH]; intros s' HQ; [done|].
    simpl. unfold bind. specialize (Hkeep y z s' HQ).
    destruct (f z s') as [s'' [[]|e]]; [by apply IH|done].
  - by apply IH.
Qed.

Lemma for_each_ext {A} (f g : A → eff S unit) xs s :
  (∀ x s', f x s' = g x s') → for_each f xs s = for_each g xs s.
Proof.
  intros Hfg. revert s. induction xs as [|x xs IH]; intros s; simpl; [done|].
  unfold bind. rewrite Hfg. destruct (g x s) as [s' [[]|e]]; [apply IH|done].
Qed.

End effects.

(** ** What a render pass never undoes *)

Section render_facts.
Context {values : Values} {ops : Collaborators}.
Implicit Types (s : impl) (p : pass_state) (X : gset Z).

Global Instance grows_impl_preorder : PreOrder grows_impl.
Proof.
  split.
  - intros s. by split.
  - intros s1 s2 s3 [] []. split; [congruence|set_solver|by etrans].
Qed.

Global Instance grows_preorder X : PreOrder (grows X).
Proof.
  split.
  - intros p. split; [done|done|set_solver].
  - intros p1 p2 p3 [] []. split; [by etrans|set_solver|set_solver].
Qed.

Lemma grows_weaken X Y p p' : X ⊆ Y → grows X p p' → grows Y p p'.
Proof. intros HXY []. split; [done|done|set_solver]. Qed.

Lemma subscript_subseteq {A} (d : A) k (m : gmap Z A) : m ⊆ subscript d k m.
Proof.
  unfold subscript. destruct (m !! k) eqn:E; [done|]. by apply insert_subseteq.
Qed.

Lemma put_layer_grows index l s : grows_impl s (put_layer index l s).
Proof. split; simpl; [done| |done]. rewrite dom_insert. set_solver. Qed.

Lemma record_sent_grows c f s : grows_impl s (record_sent c f s).
Proof. by split. Qed.

Lemma record_delivered_grows index e s : grows_impl s (record_delivered index e s).
Proof. by split. Qed.

Lemma set_aggregator_grows f s : grows_impl s (set_aggregator f s).
Proof. by split. Qed.

Lemma on_impl_grows {A} X (m : eff impl A) p :
  grows_impl p.1 (m p.1).1 → grows X p (on_impl m p).1.
Proof.
  destruct p as [s frames]. simpl. intros Hm.
  destruct (m s) as [s' r]. split; simpl; [done|done|set_solver].
Qed.

Lemma call_layer_grows {A} index (op : layer → layer * outcome A) s :
  grows_impl s (call_layer index op s).1.
Proof. unfold call_layer. destruct (op _) as [l r]. apply put_layer_grows. Qed.

Lemma send_grows c f s : grows_impl s (send c f s).1.
Proof. apply record_sent_grows. Qed.

Lemma deliver_grows index e s : grows_impl s (deliver index e s).1.
Proof.
  unfold deliver. destruct (layers_ s !! index) as [l|]; [|done].
  destruct (layer_on_interaction l e) as [l' r]. simpl.
  etrans; [apply (record_delivered_grows index e)|apply put_layer_grows].
Qed.

Lemma handle_event_grows e s : grows_impl s (handle_event e s).1.
Proof.
  unfold handle_event. destruct (event_position e) as [x y].
  destruct (collission_detect x y s) as [[t index]|]; [apply deliver_grows|done].
Qed.

Lemma flush_events_grows events s : grows_impl s (flush_events events s).1.
Proof.
  revert s. induction events as [|e events IH]; intros s; simpl; [done|].
  pose proof (handle_event_grows e (set_aggregator (λ _, events) s)) as He.
  pose proof (set_aggregator_grows (λ _, events) s) as Hs.
  unfold bind. destruct (handle_event e _) as [s' [[]|ex]]; simpl in *.
  - etrans; [|apply IH]. by etrans.
  - by etrans.
Qed.

Lemma translate_and_send_grows s : grows_impl s (translate_and_send s).1.
Proof. apply flush_events_grows. Qed.

Lemma elem_of_parallel_order {A} (x : A) (xs : list A) :
  x ∈ parallel_order xs ↔ x ∈ xs.
Proof. by rewrite parallel_order_perm. Qed.

(** The steps of [draw] after the two references are taken. *)
Ltac draw_tail_grows :=
  apply (bind_fst_rel (grows _));
    [apply on_impl_grows, call_layer_grows|intros ? [??]];
  apply (bind_fst_rel (grows _)); [reflexivity|intros ??];
  apply (bind_fst_rel (grows _)); [|intros _ [??]];
  [ case_decide; [reflexivity|];
    apply (bind_fst_rel (grows _)); [|intros ? [??]];
    [ destruct (existsb _ _); [apply on_impl_grows, call_layer_grows|reflexivity] |];
    apply (bind_fst_rel (grows _)); [|intros ??];
    [ destruct (existsb _ _); reflexivity |];
    apply on_impl_grows; unfold parallel_for_each; apply (for_each_rel grows_impl);
    intros ???; destruct (_ || _); apply send_grows
  | split; simpl; [done| |]; rewrite dom_insert; set_solver ].

Lemma draw_grows index format_desc p :
  grows {[index]} p (draw index format_desc p).1.
Proof.
  unfold draw.
  apply (bind_fst_rel (grows _)); [|intros _ p1].
  { apply on_impl_grows. destruct p as [s frames]. simpl. split; simpl.
    - done.
    - rewrite subscript_dom. set_solver.
    - apply subscript_subseteq. }
  draw_tail_grows.
Qed.

Lemma draw_inserts index format_desc p :
  index ∈ dom (layers_ (draw index format_desc p).1.1).
Proof.
  unfold draw. unfold bind at 1. destruct p as [s frames]. simpl.
  match goal with
  | |- _ ∈ dom (layers_ (?t ?p).1.1) => assert (grows {[index]} p (t p).1) as Hg
  end.
  { draw_tail_grows. }
  apply Hg. simpl. rewrite subscript_dom. set_solver.
Qed.

Lemma elem_of_active s k :
  k ∈ active s ↔
    k ∈ dom (layers_ s) ∨ ∃ m, layer_consumers_ s !! k = Some m ∧ m ≠ ∅.
Proof.
  unfold active. rewrite elem_of_union, (elem_of_dom (filter _ _)).
  unfold is_Some. setoid_rewrite map_lookup_filter_Some. naive_solver.
Qed.

Lemma seed_layers_spec l frames lc ix :
  foldl seed_layer (frames, lc, ix) l =
    (foldl (λ f k, <[k := draw_frame_empty]> f) frames l,
     foldl (λ c k, subscript ∅ k c) lc l, ix ++ l).
Proof.
  revert frames lc ix. induction l as [|k l IH]; intros frames lc ix; simpl.
  - by rewrite app_nil_r.
  - rewrite IH. by rewrite <-app_assoc.
Qed.

Lemma seeded_frames_dom (l : list Z) (frames : gmap Z draw_frame) :
  dom (foldl (λ f k, <[k := draw_frame_empty]> f) frames l) = dom frames ∪ list_to_set l.
Proof.
  revert frames. induction l as [|k l IH]; intros frames; simpl.
  - set_solver.
  - rewrite IH, dom_insert_L. set_solver.
Qed.

Lemma seeded_consumers_lookup (l : list Z) (lc : gmap Z (gmap Z layer_consumer_entry)) k :
  foldl (λ c k, subscript ∅ k c) lc l !! k =
    if decide (k ∈ l) then Some (default ∅ (lc !! k)) else lc !! k.
Proof.
  revert lc. induction l as [|j l IH]; intros lc; simpl; [done|].
  rewrite IH, subscript_lookup.
  destruct (decide (k ∈ l)), (decide (j = k)); subst; simpl.
  - by rewrite decide_True by left.
  - by rewrite decide_True by (by right).
  - by rewrite decide_True by left.
  - rewrite decide_False; [done|]. rewrite elem_of_cons. naive_solver.
Qed.

Lemma seed_consumers_spec items frames lc ix :
  (∀ k m, (k, m) ∈ items → is_Some (lc !! k)) →
  ∃ frames' ix',
    foldl seed_consumers (frames, lc, ix) items = (frames', lc, ix') ∧
    (∀ k, k ∈ ix' ↔ k ∈ ix ∨ ∃ m, (k, m) ∈ items ∧ m ≠ ∅) ∧
    (∀ k, k ∈ dom frames' ↔ k ∈ dom frames ∨ (k ∈ ix' ∧ k ∉ ix)) ∧
    (NoDup ix → NoDup ix').
Proof.
  revert frames ix. induction items as [|[k0 m0] items IH]; intros frames ix Hlc; simpl.
  { exists frames, ix. split; [done|]. split; [|split; [|done]]; intros k; [|naive_solver].
    split; [by left|]. intros [?|(m & Hm & _)]; [done|]. by apply elem_of_nil in Hm. }
  assert (∀ k m, (k, m) ∈ items → is_Some (lc !! k)) as Hlc'.
  { intros k m Hk. apply (Hlc k m). by right. }
  destruct (decide (m0 = ∅)) as [->|Hm0].
  { destruct (IH frames ix Hlc') as (frames' & ix' & -> & Hix & Hfr & Hnd).
    exists frames', ix'. split; [done|]. split; [|done].
    intros k. rewrite Hix. setoid_rewrite elem_of_cons. naive_solver. }
  destruct (decide (k0 ∈ ix)) as [Hk0|Hk0].
  { destruct (IH frames ix Hlc') as (frames' & ix' & -> & Hix & Hfr & Hnd).
    exists frames', ix'. split; [done|]. split; [|done].
    intros k. rewrite Hix. setoid_rewrite elem_of_cons. naive_solver. }
  rewrite subscript_present by (apply (Hlc k0 m0); left).
  destruct (IH (<[k0 := draw_frame_empty]> frames) (ix ++ [k0]) Hlc')
    as (frames' & ix' & -> & Hix & Hfr & Hnd).
  exists frames', ix'. split; [done|]. split; [|split]; [intros k..|].
  - rewrite Hix, elem_of_app, list_elem_of_singleton.
    setoid_rewrite elem_of_cons. naive_solver.
  - rewrite Hfr, dom_insert, elem_of_union, elem_of_singleton, Hix.
    rewrite !elem_of_app, !list_elem_of_singleton.
    destruct (decide (k = k0)) as [->|]; naive_solver.
  - intros Hix0. apply Hnd, NoDup_app. split; [done|]. split; [|apply NoDup_singleton].
    intros k Hk ->%list_elem_of_singleton. done.
Qed.

(** The try block is the flush and the drawing loop run on a stage and a
    map that the two seeding loops have prepared. *)
Lemma try_block_seed format_desc s frames :
  ∃ frames2 lc2 indices,
    try_block format_desc (s, frames) =
      (on_impl translate_and_send ;;
       parallel_for_each (λ index, draw index format_desc) indices)
        (set_layer_consumers (λ _, lc2) s, frames2) ∧
    dom frames2 = dom frames ∪ active s ∧
    (∀ k, k ∈ indices ↔ k ∈ active s) ∧
    layer_consumers_ s ⊆ lc2 ∧
    dom (layers_ s) ⊆ dom lc2 ∧
    NoDup indices ∧
    (∀ k, lc2 !! k =
            if decide (k ∈ dom (layers_ s)) then Some (default ∅ (layer_consumers_ s !! k))
            else layer_consumers_ s !! k).
Proof.
  unfold try_block. rewrite seed_layers_spec. simpl.
  set (lc1 := foldl (λ c k, subscript ∅ k c) (layer_consumers_ s) (keys_asc (layers_ s))).
  set (frames1 := foldl _ frames _).
  destruct (seed_consumers_spec (items_asc lc1) frames1 lc1 (keys_asc (layers_ s)))
    as (frames2 & indices & -> & Hix & Hfr & Hnd).
  { intros k m Hk. apply elem_of_items_asc in Hk. eauto. }
  assert (∀ k, (∃ m, (k, m) ∈ items_asc lc1 ∧ m ≠ ∅) →
               k ∈ dom (layers_ s) ∨ ∃ m, layer_consumers_ s !! k = Some m ∧ m ≠ ∅) as H1.
  { intros k (m & Hk & Hm). apply elem_of_items_asc in Hk.
    unfold lc1 in Hk. rewrite seeded_consumers_lookup in Hk.
    case_decide as Hin.
    - left. apply elem_of_keys_asc in Hin. by apply elem_of_dom.
    - right. eauto. }
  assert (∀ k m, k ∉ dom (layers_ s) → layer_consumers_ s !! k = Some m →
                 (k, m) ∈ items_asc lc1) as H2.
  { intros k m Hk Hm. apply elem_of_items_asc. unfold lc1.
    rewrite seeded_consumers_lookup, decide_False; [done|].
    rewrite elem_of_keys_asc, <-elem_of_dom. done. }
  assert (∀ k, k ∈ indices ↔ k ∈ active s) as Hactive.
  { intros k. rewrite Hix, elem_of_active, elem_of_keys_asc, <-elem_of_dom.
    split; [intros [?|?]; [by left|by apply H1]|].
    intros [?|(m & Hm & Hne)]; [by left|].
    destruct (decide (k ∈ dom (layers_ s))); [by left|right; eauto]. }
  exists frames2, lc1, indices. split; [done|]. split; [|split; [done|split; [|split; [|split]]]].
  - apply set_eq. intros k. rewrite Hfr. unfold frames1.
    rewrite seeded_frames_dom, !elem_of_union, elem_of_list_to_set, Hactive.
    rewrite elem_of_keys_asc, <-elem_of_dom, elem_of_active.
    destruct (decide (k ∈ dom (layers_ s))); tauto.
  - apply map_subseteq_spec. intros k m Hk. unfold lc1.
    rewrite seeded_consumers_lookup. case_decide; by rewrite Hk.
  - intros k Hk. apply elem_of_dom. unfold lc1.
    rewrite seeded_consumers_lookup, decide_True; [done|].
    by rewrite elem_of_keys_asc, <-elem_of_dom.
  - apply Hnd, NoDup_keys_asc.
  - intros k. unfold lc1. rewrite seeded_consumers_lookup.
    destruct (decide (k ∈ keys_asc (layers_ s))) as [Hk|Hk];
      rewrite elem_of_keys_asc, <-elem_of_dom in Hk.
    + by rewrite decide_True.
    + by rewrite decide_False.
Qed.

Lemma try_block_grows format_desc s frames :
  ∃ frames2 lc2,
    dom frames2 = dom frames ∪ active s ∧
    layer_consumers_ s ⊆ lc2 ∧
    dom (layers_ s) ⊆ dom lc2 ∧
    grows (active s) (set_layer_consumers (λ _, lc2) s, frames2)
      (try_block format_desc (s, frames)).1.
Proof.
  destruct (try_block_seed format_desc s frames)
    as (frames2 & lc2 & indices & -> & Hdom & Hix & Hlc & Hkeys & _).
  exists frames2, lc2. do 3 (split; [done|]).
  apply (bind_fst_rel (grows _)); [|intros _ p1].
  - apply on_impl_grows, translate_and_send_grows.
  - apply (for_each_rel (grows _)). intros index p2 Hin.
    eapply grows_weaken; [|apply draw_grows].
    apply elem_of_parallel_order, Hix in Hin. set_solver.
Qed.

Lemma try_block_frames_dom format_desc s frames :
  dom (try_block format_desc (s, frames)).1.2 = dom frames ∪ active s.
Proof.
  destruct (try_block_grows format_desc s frames)
    as (frames2 & lc2 & Hdom & _ & _ & [_ Hsub Hsup]).
  simpl in *. set_solver.
Qed.

Lemma try_block_log format_desc s frames :
  log_ (try_block format_desc (s, frames)).1.1 = log_ s.
Proof.
  destruct (try_block_grows format_desc s frames)
    as (frames2 & lc2 & _ & _ & _ & [[Hlog _ _] _ _]).
  done.
Qed.

Lemma try_block_consumers format_desc s frames :
  layer_consumers_ s ⊆ layer_consumers_ (try_block format_desc (s, frames)).1.1 ∧
  dom (layers_ s) ⊆ dom (layer_consumers_ (try_block format_desc (s, frames)).1.1).
Proof.
  destruct (try_block_grows format_desc s frames)
    as (frames2 & lc2 & _ & Hlc & Hkeys & [[_ _ Hc] _ _]).
  simpl in *. split; [by etrans|].
  apply subseteq_dom in Hc. set_solver.
Qed.

Lemma try_block_returns_layers format_desc s frames :
  (try_block format_desc (s, frames)).2 = returns () →
  active s ⊆ dom (layers_ (try_block format_desc (s, frames)).1.1).
Proof.
  destruct (try_block_seed format_desc s frames)
    as (frames2 & lc2 & indices & -> & _ & Hix & _ & _ & _).
  unfold bind at 1 2.
  destruct (on_impl translate_and_send _) as [p1 [[]|e]]; [|done].
  intros Hret k Hk. apply Hix, elem_of_parallel_order in Hk. revert k Hk.
  apply (for_each_returns (λ index (p : pass_state), index ∈ dom (layers_ p.1)));
    [| |done].
  - intros index p _. apply draw_inserts.
  - intros index index' p Hin. by apply (draw_grows index' format_desc p).
Qed.

End render_facts.

(** ** The render pass: its keys, its tables, its exceptions *)

Section render_pass.
Context {values : Values} {ops : Collaborators}.
Implicit Types (s : impl).

Lemma active_routes_nonempty s :
  routes_nonempty s → active s = dom (layers_ s) ∪ dom (layer_consumers_ s).
Proof.
  intros Hne. apply set_eq. intros k.
  rewrite elem_of_active, elem_of_union, (elem_of_dom (layer_consumers_ s)).
  split.
  - intros [?|(m & Hm & _)]; [by left|right; eauto].
  - intros [?|[m Hm]]; [by left|]. right. exists m. split; [done|by eapply Hne].
Qed.

Lemma on_layer_consumers index op s :
  layer_consumers_ (on_layer index op s) = layer_consumers_ s.
Proof. unfold on_layer, get_layer. by destruct (layers_ s !! index). Qed.

Lemma add_layer_consumer_nonempty token layer mode consumer s :
  routes_nonempty s →
  routes_nonempty (add_layer_consumer_task token layer mode consumer s).
Proof.
  intros Hne k m. simpl. destruct (decide (layer = k)) as [->|Hk].
  - rewrite lookup_insert_eq. intros [= <-].
    destruct (default ∅ (subscript ∅ k (layer_consumers_ s) !! k) !! token) eqn:E.
    + intros Hm. by rewrite Hm in E.
    + apply insert_non_empty.
  - rewrite lookup_insert_ne, subscript_lookup, decide_False by done. apply Hne.
Qed.

Lemma remove_layer_consumer_nonempty token layer s :
  routes_nonempty s → routes_nonempty (remove_layer_consumer_task token layer s).
Proof.
  intros Hne k m. simpl. case_decide as Hm.
  - destruct (decide (layer = k)) as [->|Hk].
    + by rewrite lookup_delete_eq.
    + rewrite lookup_delete_ne, subscript_lookup, decide_False by done. apply Hne.
  - destruct (decide (layer = k)) as [->|Hk].
    + rewrite lookup_insert_eq. by intros [= <-].
    + rewrite lookup_insert_ne, subscript_lookup, decide_False by done. apply Hne.
Qed.

Lemma reachable_routes_nonempty channel_index s :
  reachable channel_index s → routes_nonempty s.
Proof.
  induction 1 as [|s token layer mode consumer _ IH|s index producer preview _ IH
                  |s index _ IH|s _ IH].
  - intros k m. simpl. by rewrite lookup_empty.
  - by apply add_layer_consumer_nonempty.
  - unfold load_task, routes_nonempty. by rewrite on_layer_consumers.
  - done.
  - done.
Qed.

(** The pass hands back a map whatever happens; its keys are the layers and
    the indices with consumers. *)
Lemma operator_call_returns format_desc s :
  ∃ frames,
    (operator_call_task format_desc s).2 = returns frames ∧ dom frames = active s.
Proof.
  unfold operator_call_task.
  pose proof (try_block_frames_dom format_desc s ∅) as Hdom.
  destruct (try_block format_desc (s, ∅)) as [[s2 frames] [[]|e]]; simpl in *;
    exists frames; (split; [done|]); rewrite Hdom, dom_empty_L; set_solver.
Qed.

(** C2. For a stage made by any sequence of [add_route], [load] and [clear]
    commands, the next render pass returns a map whose keys are the keys of
    the layer table together with the keys of the route table, as the two
    tables stand when the pass starts. *)
Theorem render_keys_are_layers_and_routes channel_index format_desc s :
  reachable channel_index s →
  ∃ frames,
    (operator_call_task format_desc s).2 = returns frames ∧
    dom frames = dom (layers_ s) ∪ dom (layer_consumers_ s).
Proof.
  intros Hs%reachable_routes_nonempty.
  destruct (operator_call_returns format_desc s) as (frames & Hret & Hdom).
  exists frames. split; [done|]. by rewrite Hdom, active_routes_nonempty.
Qed.

(** C7. When an exception leaves the try block of a pass (the seeding, the
    flush of the interaction events or the drawing of the layers), the pass
    itself returns: it hands back the seeded map, the layer table is empty
    afterwards, and the exception is the last entry of the log. *)
Theorem render_catches_exception format_desc s e :
  (try_block format_desc (s, ∅)).2 = throws e →
  ∃ frames,
    (operator_call_task format_desc s).2 = returns frames ∧
    dom frames = active s ∧
    layers_ (operator_call_task format_desc s).1 = ∅ ∧
    log_ (operator_call_task format_desc s).1 = log_ s ++ [e].
Proof.
  intros Hthrow. unfold operator_call_task.
  pose proof (try_block_frames_dom format_desc s ∅) as Hdom.
  pose proof (try_block_log format_desc s ∅) as Hlog.
  destruct (try_block format_desc (s, ∅)) as [[s2 frames] r]; simpl in *. subst r.
  exists frames. simpl. rewrite Hlog, Hdom, dom_empty_L.
  split; [done|]. split; [set_solver|done].
Qed.

(** Whatever the outcome of a pass, every index that came as a layer has an
    entry in the consumer table afterwards. *)
Lemma render_touches_consumers format_desc s k :
  k ∈ dom (layers_ s) → k ∈ dom (layer_consumers_ (operator_call_task format_desc s).1).
Proof.
  intros Hk. unfold operator_call_task.
  destruct (try_block_consumers format_desc s ∅) as [_ Hkeys].
  destruct (try_block format_desc (s, ∅)) as [[s2 frames] [[]|e]]; simpl in *;
    by apply Hkeys.
Qed.

(** C9, amended. A render pass writes to both tables. After every pass,
    every index that came as a layer has an entry in the consumer table;
    and after a pass in which no exception reached the handler, every index
    that came with a non-empty consumer map is a key of the layer table. *)
Theorem render_populates_tables format_desc s :
  pass_touches_consumers format_desc s ∧
  ((try_block format_desc (s, ∅)).2 = returns () →
   pass_populates_layers format_desc s).
Proof.
  split.
  - intros k. apply render_touches_consumers.
  - intros Hret k m Hk Hm. unfold operator_call_task.
    pose proof (try_block_returns_layers format_desc s ∅ Hret) as Hl.
    destruct (try_block format_desc (s, ∅)) as [[s2 frames] r]; simpl in *. subst r.
    simpl. apply Hl, elem_of_active. eauto.
Qed.

End render_pass.

(** ** What the consumers of a layer are sent *)

Section fan_out.
Context {values : Values} {ops : Collaborators}.
Implicit Types (s : impl).

Lemma values_asc_empty {A} : values_asc (∅ : gmap Z A) = [].
Proof. done. Qed.

(** The sending loop calls [send] once per entry, in the order of the map,
    up to the entry whose [send] throws. *)
Lemma send_loop_sent (pick : layer_consumer_entry → draw_frame) cs s :
  ∃ n : nat,
    sent_ (for_each (λ c, send c.2 (pick c)) cs s).1 =
      sent_ s ++ ((λ c, (c.2, pick c)) <$> take n cs) ∧
    layers_ (for_each (λ c, send c.2 (pick c)) cs s).1 = layers_ s ∧
    ((for_each (λ c, send c.2 (pick c)) cs s).2 = returns () → n = length cs).
Proof.
  revert s. induction cs as [|c cs IH]; intros s; simpl.
  { exists 0%nat. by rewrite app_nil_r. }
  unfold bind.
  change (send c.2 (pick c) s) with (record_sent c.2 (pick c) s, consumer_send c.2 (pick c)).
  destruct (consumer_send c.2 (pick c)) as [[]|e].
  - destruct (IH (record_sent c.2 (pick c) s)) as (n & Hsent & Hlayers & Hret).
    exists (S n). rewrite Hsent, Hlayers. simpl. rewrite <-app_assoc.
    split; [done|]. split; [done|]. intros Hr. by rewrite Hret.
  - exists 1%nat. simpl. done.
Qed.

Lemma default_subscript {A} (d : A) k (m : gmap Z A) :
  default d (subscript d k m !! k) = default d (m !! k).
Proof. rewrite subscript_lookup, decide_True by done. done. Qed.

Lemma Forall2_fmap_same {A B} (R : A → B → Prop) (f : A → B) (l : list A) :
  Forall (λ x, R x (f x)) l → Forall2 R l (f <$> l).
Proof. induction 1; constructor; done. Qed.

Lemma take_length_fmap_take {A B} (f : A → B) (n : nat) (l : list A) :
  take (length (f <$> take n l)) l = take n l.
Proof.
  rewrite length_fmap, length_take.
  destruct (Nat.min_spec n (length l)) as [[? ->]|[? ->]]; [done|].
  by rewrite !take_ge by lia.
Qed.

Lemma length_fmap_take_all {A B} (f : A → B) (l : list A) :
  length (f <$> take (length l) l) = length l.
Proof. by rewrite length_fmap, firstn_all. Qed.

Lemma parallel_order_nil {A} : parallel_order ([] : list A) = [].
Proof. apply Permutation_nil_r. by rewrite parallel_order_perm. Qed.

(** The calls of [send] in [draw], along the list that the loop goes
    through. *)
Lemma draw_sends_served index format_desc s frames :
  ∃ sends,
    sent_ (draw index format_desc (s, frames)).1.1 = sent_ s ++ sends ∧
    Forall2 (route_frame_ok format_desc (default (layer_new None) (layers_ s !! index)))
      (take (length sends)
         (parallel_order (values_asc (default ∅ (layer_consumers_ s !! index)))))
      sends ∧
    ((draw index format_desc (s, frames)).2 = returns () →
     length sends =
       length (parallel_order (values_asc (default ∅ (layer_consumers_ s !! index))))).
Proof.
  unfold draw, bind, on_impl, read_impl, call_layer, ret, parallel_for_each. simpl.
  rewrite !default_subscript.
  set (l0 := default (layer_new None) (layers_ s !! index)).
  set (cm := default ∅ (layer_consumers_ s !! index)).
  set (cs := parallel_order (values_asc cm)).
  destruct (layer_receive l0 format_desc) as [l1 [[raw transformed]|e]] eqn:Hrecv;
    simpl; [|exists []; by rewrite app_nil_r].
  rewrite default_subscript. fold cm.
  destruct (decide (cm = ∅)) as [Hcm|Hcm]; simpl.
  { exists []. unfold cs. rewrite app_nil_r, Hcm, values_asc_empty, parallel_order_nil.
    done. }
  fold cs.
  destruct (existsb _ (values_asc cm)) eqn:Hany; simpl.
  - rewrite lookup_insert_eq. simpl.
    destruct (layer_receive_background l1) as [l2 [bg|e]] eqn:Hbg; simpl;
      [|exists []; by rewrite app_nil_r].
    rewrite lookup_insert_eq. simpl.
    set (pick := λ c : layer_consumer_entry,
           if bool_decide (c.1 = background) ||
              bool_decide (c.1 = next_producer) && layer_has_background l2
           then bg else raw).
    erewrite (for_each_ext _ (λ c, send c.2 (pick c)));
      [|intros c s'; unfold pick; by destruct (_ || _)].
    match goal with
    | |- context [for_each _ _ ?s1] =>
        destruct (send_loop_sent pick cs s1) as (n & Hsent & _ & Hret);
        destruct (for_each (λ c, send c.2 (pick c)) cs s1) as [s' r]
    end.
    simpl in *.
    exists ((λ c, (c.2, pick c)) <$> take n cs).
    split; [by destruct r as [[]|e]|]. split.
    + rewrite take_length_fmap_take. apply Forall2_fmap_same, Forall_forall.
      intros [mode c] _.
      split; [done|]. exists l1, raw, transformed. split; [done|].
      unfold pick. destruct mode; simpl; eauto.
    + destruct r as [[]|e]; [|done]. intros _.
      rewrite Hret by done. apply length_fmap_take_all.
  - set (pick := λ c : layer_consumer_entry,
           if bool_decide (c.1 = background) ||
              bool_decide (c.1 = next_producer) && false
           then draw_frame_empty else raw).
    erewrite (for_each_ext _ (λ c, send c.2 (pick c)));
      [|intros c s'; unfold pick; by destruct (_ || _)].
    match goal with
    | |- context [for_each _ _ ?s1] =>
        destruct (send_loop_sent pick cs s1) as (n & Hsent & _ & Hret);
        destruct (for_each (λ c, send c.2 (pick c)) cs s1) as [s' r]
    end.
    simpl in *.
    exists ((λ c, (c.2, pick c)) <$> take n cs).
    split; [by destruct r as [[]|e]|]. split.
    + rewrite take_length_fmap_take. apply Forall2_fmap_same, Forall_forall.
      intros [mode c] Hin.
      split; [done|]. exists l1, raw, transformed. split; [done|].
      assert (mode = foreground) as ->.
      { apply elem_of_take in Hin as (i & Hi & _).
        apply list_elem_of_lookup_2 in Hi. unfold cs in Hi.
        rewrite elem_of_parallel_order in Hi.
        destruct (decide (mode = foreground)) as [|Hmode]; [done|].
        assert (existsb (λ c : layer_consumer_entry, bool_decide (c.1 ≠ foreground))
                  (values_asc cm) = true) as Hex; [|congruence].
        apply existsb_exists. exists (mode, c). split; [by apply list_elem_of_In|].
        by apply bool_decide_eq_true. }
      done.
    + destruct r as [[]|e]; [|done]. intros _.
      rewrite Hret by done. apply length_fmap_take_all.
Qed.

(** C6. In [draw], every call of [send] passes the frame that belongs to
    the mode of an entry of the consumer map of the index: for an entry of
    mode [background] the frame is that of [receive_background], for
    [next_producer] it is that frame when the layer has a background and the
    raw frame of [receive] otherwise, and for [foreground] it is the raw
    frame. The calls are made in the order in which the entries are served;
    each is for an entry that the map holds, and when [draw] returns there
    is one call per entry and every entry of the map has been sent its
    frame. *)
Theorem draw_sends_route_frames index format_desc s frames :
  ∃ sends,
    sent_ (draw index format_desc (s, frames)).1.1 = sent_ s ++ sends ∧
    Forall2 (route_frame_ok format_desc (default (layer_new None) (layers_ s !! index)))
      (take (length sends)
         (parallel_order (values_asc (default ∅ (layer_consumers_ s !! index)))))
      sends ∧
    (∀ sent, sent ∈ sends →
       ∃ token entry,
         default ∅ (layer_consumers_ s !! index) !! token = Some entry ∧
         route_frame_ok format_desc (default (layer_new None) (layers_ s !! index))
           entry sent) ∧
    ((draw index format_desc (s, frames)).2 = returns () →
     length sends =
       length (parallel_order (values_asc (default ∅ (layer_consumers_ s !! index)))) ∧
     length sends = size (default ∅ (layer_consumers_ s !! index)) ∧
     ∀ token entry,
       default ∅ (layer_consumers_ s !! index) !! token = Some entry →
       ∃ sent,
         sent ∈ sends ∧
         route_frame_ok format_desc (default (layer_new None) (layers_ s !! index))
           entry sent).
Proof.
  destruct (draw_sends_served index format_desc s frames) as (sends & Hsent & Hok & Hlen).
  set (l0 := default (layer_new None) (layers_ s !! index)) in *.
  set (cm := default ∅ (layer_consumers_ s !! index)) in *.
  exists sends. split_and!; [done|done| |].
  - intros sent [i Hi]%list_elem_of_lookup_1.
    destruct (Forall2_lookup_r _ _ _ _ _ Hok Hi) as (entry & Hentry & Hframe).
    apply lookup_take_Some in Hentry as [Hentry _].
    apply list_elem_of_lookup_2 in Hentry.
    rewrite elem_of_parallel_order, elem_of_values_asc in Hentry.
    destruct Hentry as [token Htoken]. by exists token, entry.
  - intros Hret. specialize (Hlen Hret). split; [done|]. split.
    { by rewrite Hlen, parallel_order_perm, length_values_asc. }
    intros token entry Htoken.
    assert (entry ∈ parallel_order (values_asc cm)) as [i Hi]%list_elem_of_lookup_1.
    { rewrite elem_of_parallel_order, elem_of_values_asc. by exists token. }
    rewrite Hlen, firstn_all in Hok.
    destruct (Forall2_lookup_l _ _ _ _ _ Hok Hi) as (sent & Hs & Hframe).
    exists sent. split; [by eapply list_elem_of_lookup_2|done].
Qed.

End fan_out.

(** ** The interaction hit test *)

Section hit_test.
Context {values : Values} {ops : Collaborators}.
Implicit Types (s : impl).

Lemma collission_scan_hit x y ls visited t i :
  collission_scan x y ls = (visited, Some (t, i)) →
  ∃ before l after,
    ls = before ++ (i, l) :: after ∧ visited = before.*1 ++ [i] ∧
    t = fetch (tween_ l) ∧ hits x y l = true ∧
    Forall (λ kl, hits x y kl.2 = false) before.
Proof.
  revert visited. induction ls as [|[k l] ls IH]; intros visited; simpl; [done|].
  fold (hits x y l). destruct (hits x y l) eqn:Hhit.
  - intros [= <- <- <-]. exists [], l, ls. by split_and!.
  - destruct (collission_scan x y ls) as [visited' target]. intros [= <- ->].
    destruct (IH visited' eq_refl) as (before & l' & after & -> & -> & Ht & Hl' & Hbefore).
    exists ((k, l) :: before), l', after. split_and!; try done.
    by constructor.
Qed.

Lemma collission_scan_miss x y ls visited :
  collission_scan x y ls = (visited, None) →
  visited = ls.*1 ∧ Forall (λ kl, hits x y kl.2 = false) ls.
Proof.
  revert visited. induction ls as [|[k l] ls IH]; intros visited; simpl.
  { by intros [= <-]. }
  fold (hits x y l). destruct (hits x y l) eqn:Hhit; [done|].
  destruct (collission_scan x y ls) as [visited' target]. intros [= <- ->].
  destruct (IH visited' eq_refl) as [-> Hls]. split; [done|by constructor].
Qed.

Lemma descending_reverse (l : list Z) :
  StronglySorted Z.lt l → StronglySorted (λ i j, j < i) (reverse l).
Proof.
  induction 1 as [|x l Hl IH Hx]; [apply SSorted_nil|].
  rewrite reverse_cons. apply StronglySorted_app. split; [|split; [done|repeat constructor]].
  intros x1 x2 Hx1 ->%list_elem_of_singleton. rewrite elem_of_reverse in Hx1.
  rewrite Forall_forall in Hx. simpl. by apply Hx.
Qed.

Lemma reverse_items_keys s :
  (reverse (items_asc (layers_ s))).*1 = reverse (keys_asc (layers_ s)).
Proof. by rewrite fmap_reverse, items_asc_keys. Qed.

Lemma descending_layers s :
  StronglySorted (λ i j, j < i) (reverse (keys_asc (layers_ s))).
Proof. apply descending_reverse, keys_asc_strict. Qed.

(** C8. The hit test for an event at [(x, y)] visits the layers in strictly
    descending order of their indices, each with its current transform, and
    stops at the first layer the event hits: that layer is the target, it
    is the last one visited, no layer above it is hit, and the event is
    handed to it and to no other layer. When no layer is hit every layer
    has been visited and the event is dropped. *)
Theorem hit_test_topmost_first x y s :
  StronglySorted (λ i j, j < i) (collission_visited x y s) ∧
  collission_visited x y s `prefix_of` reverse (keys_asc (layers_ s)) ∧
  match collission_detect x y s with
  | Some (t, i) =>
      ∃ l, layers_ s !! i = Some l ∧ t = fetch (tween_ l) ∧ hits x y l = true ∧
           last (collission_visited x y s) = Some i ∧
           (∀ j l', layers_ s !! j = Some l' → i < j → hits x y l' = false) ∧
           (∀ e, event_position e = (x, y) →
                 delivered_ (handle_event e s).1 = delivered_ s ++ [(i, e)])
  | None =>
      collission_visited x y s = reverse (keys_asc (layers_ s)) ∧
      (∀ j l', layers_ s !! j = Some l' → hits x y l' = false) ∧
      (∀ e, event_position e = (x, y) → handle_event e s = (s, returns ()))
  end.
Proof.
  pose proof (descending_layers s) as Hdesc.
  pose proof (reverse_items_keys s) as Hkeys.
  assert (∀ j l', layers_ s !! j = Some l' → (j, l') ∈ reverse (items_asc (layers_ s)))
    as Hin.
  { intros j l' Hj. by apply elem_of_reverse, elem_of_items_asc. }
  assert (∀ e, event_position e = (x, y) →
               handle_event e s =
                 match (collission_scan x y (reverse (items_asc (layers_ s)))).2 with
                 | Some (_, index) => deliver index e s
                 | None => (s, returns ())
                 end) as Hhandle.
  { intros e He. unfold handle_event, collission_detect. by rewrite He. }
  unfold collission_visited, collission_detect.
  destruct (collission_scan x y (reverse (items_asc (layers_ s))))
    as [visited [[t i]|]] eqn:Hscan; simpl in *.
  - apply collission_scan_hit in Hscan
      as (before & l & after & Hls & -> & -> & Hhit & Hbefore).
    rewrite Hls in Hkeys, Hin. rewrite fmap_app, fmap_cons in Hkeys. simpl in Hkeys.
    rewrite <-Hkeys, (cons_middle i), app_assoc in Hdesc.
    split; [by apply StronglySorted_app_1_l in Hdesc|].
    split. { exists (after.*1). by rewrite <-Hkeys, (cons_middle i), app_assoc. }
    assert (layers_ s !! i = Some l) as Hl.
    { apply elem_of_items_asc, elem_of_reverse. rewrite Hls. set_solver. }
    exists l. split_and!; try done.
    + apply last_snoc.
    + intros j l' Hj Hlt. apply Hin in Hj.
      apply elem_of_app in Hj as [Hj|Hj].
      { rewrite Forall_forall in Hbefore. by apply (Hbefore (j, l')). }
      apply elem_of_cons in Hj as [[= -> ->]|Hj]; [lia|].
      assert (j < i); [|lia].
      apply (StronglySorted_app_1_elem_of _ _ _ i j Hdesc); [set_solver|].
      apply list_elem_of_fmap. by exists (j, l').
    + intros e He. rewrite (Hhandle e He). unfold deliver. rewrite Hl.
      by destruct (layer_on_interaction l e).
  - apply collission_scan_miss in Hscan as [-> Hmiss].
    rewrite Hkeys. split; [done|]. split; [done|]. split_and!; try done.
    intros j l' Hj. rewrite Forall_forall in Hmiss. by apply (Hmiss (j, l')), Hin.
Qed.

End hit_test.

(** ** The commands of one stage *)

Section commands.
Context {values : Values} {ops : Collaborators}.
Implicit Types (s : impl).

Lemma get_layer_consumers index s :
  layer_consumers_ (get_layer index s).1 = layer_consumers_ s.
Proof. unfold get_layer. by destruct (layers_ s !! index). Qed.

Lemma get_layer_result index s :
  (get_layer index s).2 = default (layer_new (Some index)) (layers_ s !! index).
Proof. unfold get_layer. by destruct (layers_ s !! index). Qed.

Lemma get_layer_layers index s :
  layers_ (get_layer index s).1 = subscript (layer_new (Some index)) index (layers_ s).
Proof. unfold get_layer, subscript. by destruct (layers_ s !! index). Qed.

Lemma apply_transforms_entry_consumers transform s :
  layer_consumers_ (apply_transforms_entry transform s).1 = layer_consumers_ s.
Proof.
  destruct transform as [[[index f] d] tw]. unfold apply_transforms_entry.
  pose proof (get_layer_consumers index s) as Hg.
  destruct (get_layer index s) as [s1 l]. by destruct (f _).
Qed.

Lemma apply_transforms_consumers transforms s :
  layer_consumers_ (apply_transforms_task transforms s).1 = layer_consumers_ s.
Proof.
  unfold apply_transforms_task. revert s.
  induction transforms as [|transform transforms IH]; intros s; simpl; [done|].
  unfold bind. pose proof (apply_transforms_entry_consumers transform s) as He.
  destruct (apply_transforms_entry transform s) as [s1 [[]|e]]; simpl in *; [|done].
  by rewrite IH.
Qed.

Lemma swap_layer_consumers index other_index swap_transforms s :
  layer_consumers_ (swap_layer_task index other_index swap_transforms s) =
    layer_consumers_ s.
Proof.
  unfold swap_layer_task.
  pose proof (get_layer_consumers index s) as H1.
  destruct (get_layer index s) as [s1 l1].
  pose proof (get_layer_consumers other_index s1) as H2.
  destruct (get_layer other_index s1) as [s2 l2]. simpl in *.
  destruct swap_transforms; simpl; congruence.
Qed.

Lemma apply_transform_consumers index transform mix_duration tw s :
  layer_consumers_ (apply_transform_task index transform mix_duration tw s).1 =
    layer_consumers_ s.
Proof.
  unfold apply_transform_task. pose proof (get_layer_consumers index s) as Hg.
  destruct (get_layer index s) as [s1 l]. by destruct (transform _).
Qed.

Lemma get_current_transform_consumers index s :
  layer_consumers_ (get_current_transform_task index s).1 = layer_consumers_ s.
Proof.
  unfold get_current_transform_task. pose proof (get_layer_consumers index s) as Hg.
  by destruct (get_layer index s).
Qed.

(** Only the two route commands write to the consumer table. *)
Lemma run_command_consumers c s :
  (∀ token layer mode consumer, c ≠ add_layer_consumer_command token layer mode consumer) →
  (∀ token layer, c ≠ remove_layer_consumer_command token layer) →
  layer_consumers_ (run_command c s) = layer_consumers_ s.
Proof.
  intros Hadd Hremove. destruct c; simpl;
    unfold clear_transforms_task, load_task, pause_task, resume_task, play_task,
      preview_task, stop_task;
    first [ apply on_layer_consumers | apply get_layer_consumers
          | apply apply_transforms_consumers | apply apply_transform_consumers
          | apply get_current_transform_consumers | apply swap_layer_consumers
          | exfalso; by eapply Hadd
          | exfalso; by eapply Hremove
          | done ].
Qed.

Lemma swap_tweens_back_consumers (l : list Z) (a b : impl) :
  layer_consumers_ (foldl swap_tweens_back (a, b) l).1 = layer_consumers_ a ∧
  layer_consumers_ (foldl swap_tweens_back (a, b) l).2 = layer_consumers_ b.
Proof.
  revert a b. induction l as [|k l IH]; intros a b; simpl; [done|].
  pose proof (get_layer_consumers k a) as Ha.
  pose proof (get_layer_consumers k b) as Hb.
  destruct (get_layer k a) as [a1 la], (get_layer k b) as [b1 lb]. simpl in *.
  destruct (IH (put_layer k (layer_set_tween (tween_ lb) la) a1)
               (put_layer k (layer_set_tween (tween_ la) lb) b1)) as [-> ->].
  done.
Qed.

Lemma swap_layers_func_consumers swap_transforms a b :
  layer_consumers_ (swap_layers_func swap_transforms a b).1 = layer_consumers_ a ∧
  layer_consumers_ (swap_layers_func swap_transforms a b).2 = layer_consumers_ b.
Proof.
  unfold swap_layers_func. destruct swap_transforms; [done|].
  match goal with
  | |- context [foldl swap_tweens_back (?a1, ?b1) ?l] =>
      by destruct (swap_tweens_back_consumers l a1 b1) as [-> ->]
  end.
Qed.

Lemma swap_layer_func_consumers index other_index swap_transforms a b :
  layer_consumers_ (swap_layer_func index other_index swap_transforms a b).1 =
    layer_consumers_ a ∧
  layer_consumers_ (swap_layer_func index other_index swap_transforms a b).2 =
    layer_consumers_ b.
Proof.
  unfold swap_layer_func.
  pose proof (get_layer_consumers index a) as Ha.
  pose proof (get_layer_consumers other_index b) as Hb.
  destruct (get_layer index a) as [a1 la], (get_layer other_index b) as [b1 lb].
  by destruct swap_transforms.
Qed.

(** C5, amended. Every command other than the render pass keeps the
    consumer table free of empty maps: the commands of one stage, the two
    swaps between stages, and in particular [remove_layer_consumer], which
    erases the key of a layer when it removes the layer's last consumer. *)
Theorem commands_keep_routes_nonempty s :
  routes_nonempty s →
  (∀ c, routes_nonempty (run_command c s)) ∧
  (∀ swap_transforms b, routes_nonempty b →
     routes_nonempty (swap_layers_func swap_transforms s b).1 ∧
     routes_nonempty (swap_layers_func swap_transforms s b).2) ∧
  (∀ index other_index swap_transforms b, routes_nonempty b →
     routes_nonempty (swap_layer_func index other_index swap_transforms s b).1 ∧
     routes_nonempty (swap_layer_func index other_index swap_transforms s b).2) ∧
  (∀ token layer m,
     layer_consumers_ s !! layer = Some m → delete token m = ∅ →
     layer_consumers_ (remove_layer_consumer_task token layer s) !! layer = None).
Proof.
  intros Hs. split_and!.
  - intros c.
    destruct c;
      try (unfold routes_nonempty; rewrite run_command_consumers; done).
    + by apply add_layer_consumer_nonempty.
    + by apply remove_layer_consumer_nonempty.
  - intros st b Hb. unfold routes_nonempty.
    by destruct (swap_layers_func_consumers st s b) as [-> ->].
  - intros i j st b Hb. unfold routes_nonempty.
    by destruct (swap_layer_func_consumers i j st s b) as [-> ->].
  - intros token layer m Hm Hempty. simpl.
    rewrite subscript_present by eauto. rewrite Hm. simpl.
    rewrite decide_True by done. apply lookup_delete_eq.
Qed.

End commands.

(** ** Swapping the layers of two stages *)

Section swaps.
Context {values : Values} {ops : Collaborators}.
Implicit Types (a b : impl) (m : gmap Z layer).

Lemma swap_tweens_back_lookup (l : list Z) a b i :
  NoDup l →
  layers_ (foldl swap_tweens_back (a, b) l).1 !! i =
    (if decide (i ∈ l)
     then Some (layer_set_tween (tween_ (layer_or_new (layers_ b) i))
                  (layer_or_new (layers_ a) i))
     else layers_ a !! i) ∧
  layers_ (foldl swap_tweens_back (a, b) l).2 !! i =
    (if decide (i ∈ l)
     then Some (layer_set_tween (tween_ (layer_or_new (layers_ a) i))
                  (layer_or_new (layers_ b) i))
     else layers_ b !! i).
Proof.
  intros Hnd. revert a b. induction Hnd as [|k l Hk Hnd IH]; intros a b; simpl; [done|].
  pose proof (get_layer_result k a) as Hla. pose proof (get_layer_layers k a) as Ha.
  pose proof (get_layer_result k b) as Hlb. pose proof (get_layer_layers k b) as Hb.
  destruct (get_layer k a) as [a1 la], (get_layer k b) as [b1 lb]. simpl in *.
  destruct (IH (put_layer k (layer_set_tween (tween_ lb) la) a1)
               (put_layer k (layer_set_tween (tween_ la) lb) b1)) as [-> ->].
  simpl. rewrite Ha, Hb. unfold layer_or_new.
  destruct (decide (i = k)) as [->|Hik].
  - rewrite !lookup_insert_eq.
    destruct (decide (k ∈ l)); [done|].
    destruct (decide (k ∈ k :: l)) as [_|Hn]; [by subst|].
    exfalso. apply Hn. left.
  - rewrite !lookup_insert_ne, !subscript_lookup by done.
    destruct (decide (k = i)); [congruence|].
    destruct (decide (i ∈ l)) as [Hil|Hil], (decide (i ∈ k :: l)) as [Hikl|Hikl];
      try done.
    + exfalso. apply Hikl. by right.
    + exfalso. apply elem_of_cons in Hikl as [?|?]; done.
Qed.

(** One swap without the transforms: each stage holds, at every index that
    either stage had, the other stage's layer under its own tween. *)
Lemma swap_layers_func_lookup a b i :
  layers_ (swap_layers_func false a b).1 !! i =
    (if decide (i ∈ dom (layers_ a) ∪ dom (layers_ b))
     then Some (layer_set_tween (tween_ (layer_or_new (layers_ a) i))
                  (layer_or_new (layers_ b) i))
     else None) ∧
  layers_ (swap_layers_func false a b).2 !! i =
    (if decide (i ∈ dom (layers_ a) ∪ dom (layers_ b))
     then Some (layer_set_tween (tween_ (layer_or_new (layers_ b) i))
                  (layer_or_new (layers_ a) i))
     else None).
Proof.
  unfold swap_layers_func. simpl.
  set (ids := merge_sort Z.le (elements (dom (layers_ b) ∪ dom (layers_ a)))).
  assert (NoDup ids) as Hnd.
  { unfold ids. rewrite merge_sort_Permutation. apply NoDup_elements. }
  assert (∀ k, k ∈ ids ↔ k ∈ dom (layers_ a) ∪ dom (layers_ b)) as Hids.
  { intros k. unfold ids. rewrite merge_sort_Permutation, elem_of_elements. set_solver. }
  destruct (swap_tweens_back_lookup ids (set_layers (λ _, layers_ b) a)
              (set_layers (λ _, layers_ a) b) i Hnd) as [-> ->].
  simpl. destruct (decide (i ∈ ids)) as [Hi|Hi]; rewrite Hids in Hi.
  - by repeat case_decide.
  - repeat case_decide; try done. split; apply not_elem_of_dom; set_solver.
Qed.

Lemma swap_layers_func_dom a b :
  dom (layers_ (swap_layers_func false a b).1) = dom (layers_ a) ∪ dom (layers_ b) ∧
  dom (layers_ (swap_layers_func false a b).2) = dom (layers_ a) ∪ dom (layers_ b).
Proof.
  split; apply set_eq; intros i; rewrite elem_of_dom;
    destruct (swap_layers_func_lookup a b i) as [H1 H2];
    [rewrite H1|rewrite H2]; case_decide; split; (done || by intros [??] || eauto).
Qed.

Lemma on_both_lookup (f : impl → impl → impl * impl) this other a b
    (h : gmap positive impl) :
  this ≠ other → h !! this = Some a → h !! other = Some b →
  on_both this other f h !! this = Some (f a b).1 ∧
  on_both this other f h !! other = Some (f a b).2.
Proof.
  intros Hne Ha Hb. unfold on_both. rewrite Ha, Hb. destruct (f a b) as [a' b']. simpl.
  by rewrite lookup_insert_eq, lookup_insert_ne, lookup_insert_eq.
Qed.

Lemma swap_layers_func_twice_with a b :
  swap_layers_func true (swap_layers_func true a b).1 (swap_layers_func true a b).2
  = (a, b).
Proof. by destruct a, b. Qed.

Lemma swap_layers_func_tweens_kept a b :
  tweens_kept (layers_ a) (layers_ (swap_layers_func false a b).1) ∧
  tweens_kept (layers_ b) (layers_ (swap_layers_func false a b).2).
Proof.
  split; intros i l Hl; destruct (swap_layers_func_lookup a b i) as [H1 H2];
    [rewrite H1|rewrite H2]; unfold layer_or_new; rewrite Hl;
    (rewrite decide_True; [done|]); apply elem_of_dom_2 in Hl; set_solver.
Qed.

Lemma swap_layers_func_twice_without a b :
  let a1 := (swap_layers_func false a b).1 in
  let b1 := (swap_layers_func false a b).2 in
  restored_with_placeholders (layers_ a) (layers_ (swap_layers_func false a1 b1).1)
    (layers_ b) ∧
  restored_with_placeholders (layers_ b) (layers_ (swap_layers_func false a1 b1).2)
    (layers_ a).
Proof.
  intros a1 b1.
  destruct (swap_layers_func_dom a b) as [Hda Hdb]. fold a1 in Hda. fold b1 in Hdb.
  split; intros i;
    destruct (swap_layers_func_lookup a1 b1 i) as [H1 H2];
    destruct (swap_layers_func_lookup a b i) as [H3 H4]; fold a1 in H3; fold b1 in H4;
    [rewrite H1|rewrite H2]; rewrite Hda, Hdb; unfold layer_or_new at 1 2;
    rewrite H3, H4; unfold layer_or_new.
  - destruct (decide (i ∈ dom (layers_ a) ∪ dom (layers_ b))) as [Hi|Hi].
    + rewrite decide_True by set_solver. simpl.
      destruct (layers_ a !! i) as [l|] eqn:E; simpl.
      * by destruct l.
      * rewrite decide_True; [done|]. apply not_elem_of_dom in E. set_solver.
    + rewrite decide_False by set_solver.
      assert (layers_ a !! i = None) as -> by (apply not_elem_of_dom; set_solver).
      rewrite decide_False; [done|set_solver].
  - destruct (decide (i ∈ dom (layers_ a) ∪ dom (layers_ b))) as [Hi|Hi].
    + rewrite decide_True by set_solver. simpl.
      destruct (layers_ b !! i) as [l|] eqn:E; simpl.
      * by destruct l.
      * rewrite decide_True; [done|]. apply not_elem_of_dom in E. set_solver.
    + rewrite decide_False by set_solver.
      assert (layers_ b !! i = None) as -> by (apply not_elem_of_dom; set_solver).
      rewrite decide_False; [done|set_solver].
Qed.

(** C3, amended. For two different stages: with the transforms, two swaps
    of the layer tables in succession give back both stages as they were.
    Without the transforms, after one swap each stage has, at every index
    it had a layer, the tween it had there, and after two swaps each stage
    has its layers back and holds a new placeholder layer at every index
    that only the other stage had. *)
Theorem swap_layers_twice this other a b (h : gmap positive impl) :
  this ≠ other → h !! this = Some a → h !! other = Some b →
  on_both this other (swap_layers_func true)
    (on_both this other (swap_layers_func true) h) = h ∧
  ∃ a1 b1 a2 b2,
    on_both this other (swap_layers_func false) h !! this = Some a1 ∧
    on_both this other (swap_layers_func false) h !! other = Some b1 ∧
    on_both this other (swap_layers_func false)
      (on_both this other (swap_layers_func false) h) !! this = Some a2 ∧
    on_both this other (swap_layers_func false)
      (on_both this other (swap_layers_func false) h) !! other = Some b2 ∧
    tweens_kept (layers_ a) (layers_ a1) ∧
    tweens_kept (layers_ b) (layers_ b1) ∧
    restored_with_placeholders (layers_ a) (layers_ a2) (layers_ b) ∧
    restored_with_placeholders (layers_ b) (layers_ b2) (layers_ a).
Proof.
  intros Hne Ha Hb. split.
  - destruct (on_both_lookup (swap_layers_func true) this other a b h Hne Ha Hb)
      as [Ha1 Hb1].
    unfold on_both at 1. rewrite Ha1, Hb1, swap_layers_func_twice_with.
    unfold on_both. rewrite Ha, Hb. simpl.
    apply map_eq. intros p.
    destruct (decide (p = other)) as [->|?]; [by rewrite lookup_insert_eq|].
    rewrite lookup_insert_ne by done.
    destruct (decide (p = this)) as [->|?]; [by rewrite lookup_insert_eq|].
    by rewrite !lookup_insert_ne by done.
  - destruct (on_both_lookup (swap_layers_func false) this other a b h Hne Ha Hb)
      as [Ha1 Hb1].
    destruct (on_both_lookup (swap_layers_func false) this other _ _ _ Hne Ha1 Hb1)
      as [Ha2 Hb2].
    eexists _, _, _, _. split_and!; try done.
    + apply swap_layers_func_tweens_kept.
    + apply swap_layers_func_tweens_kept.
    + apply swap_layers_func_twice_without.
    + apply swap_layers_func_twice_without.
Qed.

End swaps.

(** ** Handles: what is queued and what runs at once *)

Section handles.
Context {values : Values} {ops : Collaborators}.
Implicit Types (w : world).

(** What the intra-stage swap leaves in the layer table. *)
Lemma swap_layer_task_layers index other_index swap_transforms (s : impl) :
  let layer := layer_or_new (layers_ s) index in
  let other_layer :=
    if decide (index = other_index) then layer
    else layer_or_new (layers_ s) other_index in
  layers_ (swap_layer_task index other_index swap_transforms s) =
    <[other_index := if swap_transforms then layer
                     else layer_set_tween (tween_ other_layer) layer]>
      (<[index := if swap_transforms then other_layer
                  else layer_set_tween (tween_ layer) other_layer]> (layers_ s)).
Proof.
  intros layer other_layer. unfold swap_layer_task.
  pose proof (get_layer_result index s) as Hl.
  pose proof (get_layer_layers index s) as Hs1.
  destruct (get_layer index s) as [s1 l]. simpl in *.
  pose proof (get_layer_result other_index s1) as Hl'.
  pose proof (get_layer_layers other_index s1) as Hs2.
  destruct (get_layer other_index s1) as [s2 l']. simpl in *.
  assert (l = layer) as -> by done.
  assert (l' = other_layer) as ->.
  { rewrite Hl', Hs1, subscript_lookup. unfold other_layer, layer_or_new.
    destruct (decide (index = other_index)) as [->|]; [done|done]. }
  destruct swap_transforms; simpl; apply map_eq; intros k; rewrite Hs2, Hs1;
    (destruct (decide (k = other_index)) as [->|]; [by rewrite !lookup_insert_eq|]);
    rewrite !(lookup_insert_ne _ other_index) by done;
    (destruct (decide (k = index)) as [->|]; [by rewrite !lookup_insert_eq|]);
    by rewrite !lookup_insert_ne, !subscript_lookup, !decide_False by done.
Qed.

(** C4, amended. Called with the stage itself as the other stage,
    [swap_layers] returns a ready handle and changes nothing, while the
    cross-stage [swap_layer] publishes its monitor message and then is the
    intra-stage [swap_layer]: its handle is the one of the closure it puts
    on the stage's executor, and that closure exchanges the two layers. *)
Theorem swap_with_self this index other_index swap_transforms w :
  swap_layers this this swap_transforms w = (w, make_ready_future) ∧
  swap_layer_with this index other_index this swap_transforms w =
    swap_layer this index other_index swap_transforms
      (publish_on this (layer_message index "swaptransforms") w) ∧
  (swap_layer_with this index other_index this swap_transforms w).2 =
    queued this (length (pending w this)) ∧
  pending (swap_layer_with this index other_index this swap_transforms w).1 this =
    pending w this ++
      [(high_priority, on_this this (swap_layer_task index other_index swap_transforms))].
Proof.
  unfold swap_layers, swap_layer_with. rewrite !decide_True by done.
  split_and!; try done.
  unfold swap_layer, begin_invoke, pending. simpl. by rewrite lookup_insert_eq.
Qed.

(** C10. [execute] runs [func] on the spot, once: the world it leaves is
    the one [func] leaves, with nothing added to any executor; when [func]
    returns, the handle is a ready one, and when [func] throws, so does
    [execute]. *)
Theorem execute_runs_func_at_once this (func : eff world unit) w :
  (execute this func w).1 = (func w).1 ∧
  match (func w).2 with
  | returns _ => (execute this func w).2 = returns make_ready_future
  | throws e => (execute this func w).2 = throws e
  end.
Proof. unfold execute, bind, ret. by destruct (func w) as [w' [[]|e]]. Qed.

(** A closure queued on an idle executor is what the executor runs. *)
Lemma run_executor_begin_invoke this (f : closure) w :
  pending w this = [] →
  objects (run_executor this (begin_invoke this f high_priority w).1) = f (objects w).
Proof.
  intros Hidle. unfold run_executor, begin_invoke, pending in *. simpl.
  by rewrite lookup_insert_eq, Hidle.
Qed.

End handles.

(** ** The tween a transform command installs *)

Section transforms.
Context {values : Values} {ops : Collaborators}.
Implicit Types (s : impl).

Lemma layer_set_tween_own (l : layer) : layer_set_tween (tween_ l) l = l.
Proof. by destruct l. Qed.

Lemma insert_subscript {A} (d x : A) k (m : gmap Z A) :
  <[k := x]> (subscript d k m) = <[k := x]> m.
Proof. unfold subscript. destruct (m !! k); [done|]. by rewrite insert_insert_eq. Qed.

Lemma subscript_insert_default {A} (d : A) k (m : gmap Z A) :
  subscript d k m = <[k := default d (m !! k)]> m.
Proof.
  unfold subscript. destruct (m !! k) eqn:E; simpl; [|done]. by rewrite insert_id.
Qed.

Lemma set_layers_id f s : f (layers_ s) = layers_ s → set_layers f s = s.
Proof. destruct s. unfold set_layers. simpl. by intros ->. Qed.

Lemma get_layer_set index s :
  (get_layer index s).1 = set_layers (subscript (layer_new (Some index)) index) s.
Proof.
  unfold get_layer. destruct (layers_ s !! index) eqn:E; simpl.
  - symmetry. apply set_layers_id. unfold subscript. by rewrite E.
  - unfold set_layers, subscript. by rewrite E.
Qed.

(** One entry of a batch of [apply_transforms]: the new tween starts at
    the fetched transform and ends where the function takes the old
    destination; when the function throws, [get_layer] has been called and
    nothing else has happened. *)
Lemma apply_transforms_entry_effect index f mix_duration tw s :
  let layer := layer_or_new (layers_ s) index in
  let tween := tween_ layer in
  apply_transforms_entry (index, f, mix_duration, tw) s =
    match f (dest tween) with
    | returns dst =>
        (set_layers
           (λ m, <[index := layer_set_tween
                              (tweened_transform_new (fetch tween) dst mix_duration tw)
                              layer]> m) s,
         returns ())
    | throws e => ((get_layer index s).1, throws e)
    end.
Proof.
  unfold apply_transforms_entry, get_layer, layer_or_new.
  destruct (layers_ s !! index) eqn:E; simpl; destruct (f _); try done.
  unfold put_layer, set_layers. simpl. by rewrite insert_insert_eq.
Qed.

(** [apply_transform]: the new tween starts at the fetched transform and
    ends where the function takes that same fetched transform. *)
Lemma apply_transform_task_effect index transform mix_duration tw s :
  let layer := layer_or_new (layers_ s) index in
  let src := fetch (tween_ layer) in
  apply_transform_task index transform mix_duration tw s =
    match transform src with
    | returns dst =>
        (set_layers
           (λ m, <[index := layer_set_tween
                              (tweened_transform_new src dst mix_duration tw) layer]> m) s,
         returns ())
    | throws e => ((get_layer index s).1, throws e)
    end.
Proof.
  unfold apply_transform_task, get_layer, layer_or_new.
  destruct (layers_ s !! index) eqn:E; simpl; destruct (transform _); try done.
  unfold put_layer, set_layers. simpl. by rewrite insert_insert_eq.
Qed.

Lemma apply_transforms_task_cons transform transforms s :
  apply_transforms_task (transform :: transforms) s =
    match apply_transforms_entry transform s with
    | (s1, returns _) => apply_transforms_task transforms s1
    | (s1, throws e) => (s1, throws e)
    end.
Proof. done. Qed.

(** [apply_transform] starts the new tween at the fetched transform and
    ends it at [transform] of that same fetched transform. *)
Lemma apply_transform_task_installs index transform mix_duration tw s dst :
  let layer := layer_or_new (layers_ s) index in
  let src := fetch (tween_ layer) in
  transform src = returns dst →
  layers_ (apply_transform_task index transform mix_duration tw s).1 !! index =
    Some (layer_set_tween (tweened_transform_new src dst mix_duration tw) layer).
Proof.
  intros layer src Hdst. rewrite apply_transform_task_effect. fold layer src.
  rewrite Hdst. simpl. by rewrite lookup_insert_eq.
Qed.

(** [apply_transforms] starts each new tween at the fetched transform and
    ends it at the function of the old destination. *)
Lemma apply_transforms_task_installs index f mix_duration tw s dst :
  let layer := layer_or_new (layers_ s) index in
  let tween := tween_ layer in
  f (dest tween) = returns dst →
  layers_ (apply_transforms_task [(index, f, mix_duration, tw)] s).1 !! index =
    Some (layer_set_tween (tweened_transform_new (fetch tween) dst mix_duration tw) layer).
Proof.
  intros layer tween Hdst.
  rewrite apply_transforms_task_cons, apply_transforms_entry_effect. fold layer tween.
  rewrite Hdst. simpl. by rewrite lookup_insert_eq.
Qed.

End transforms.

(** ** The layer table after a command *)

Section layer_table.
Context {values : Values} {ops : Collaborators}.
Implicit Types (s : impl).

Lemma on_layer_layers index op s :
  layers_ (on_layer index op s) =
    <[index := op (layer_or_new (layers_ s) index)]> (layers_ s).
Proof.
  unfold on_layer, get_layer, layer_or_new.
  destruct (layers_ s !! index) eqn:E; simpl; [done|]. by rewrite insert_insert_eq.
Qed.


(** What the intra-stage swap leaves at each index. *)
Lemma swap_layer_task_lookup index other_index swap_transforms s k :
  let layer := layer_or_new (layers_ s) index in
  let other_layer :=
    if decide (index = other_index) then layer
    else layer_or_new (layers_ s) other_index in
  layers_ (swap_layer_task index other_index swap_transforms s) !! k =
    if decide (k = other_index)
    then Some (if swap_transforms then layer
               else layer_set_tween (tween_ other_layer) layer)
    else if decide (k = index)
    then Some (if swap_transforms then other_layer
               else layer_set_tween (tween_ layer) other_layer)
    else layers_ s !! k.
Proof.
  intros layer other_layer. unfold swap_layer_task.
  pose proof (get_layer_result index s) as Hl.
  pose proof (get_layer_layers index s) as Hs1.
  destruct (get_layer index s) as [s1 l]. simpl in *.
  pose proof (get_layer_result other_index s1) as Hl'.
  pose proof (get_layer_layers other_index s1) as Hs2.
  destruct (get_layer other_index s1) as [s2 l']. simpl in *.
  assert (l = layer) as -> by done.
  assert (l' = other_layer) as ->.
  { rewrite Hl', Hs1, subscript_lookup. unfold other_layer, layer_or_new.
    destruct (decide (index = other_index)) as [->|]; [done|done]. }
  destruct swap_transforms; simpl; rewrite Hs2, Hs1;
    (destruct (decide (k = other_index)) as [->|]; [by rewrite !lookup_insert_eq|]);
    rewrite !(lookup_insert_ne _ other_index) by done;
    (destruct (decide (k = index)) as [->|]; [by rewrite !lookup_insert_eq|]);
    by rewrite !lookup_insert_ne, !subscript_lookup, !decide_False by done.
Qed.



(** The intra-stage swap changes the layer table and nothing else. *)
Lemma swap_layer_task_set index other_index swap_transforms s :
  swap_layer_task index other_index swap_transforms s =
    set_layers (λ _, layers_ (swap_layer_task index other_index swap_transforms s)) s.
Proof.
  unfold swap_layer_task.
  pose proof (get_layer_set index s) as Hs1.
  destruct (get_layer index s) as [s1 l]. simpl in *. subst s1.
  pose proof (get_layer_set other_index
                (set_layers (subscript (layer_new (Some index)) index) s)) as Hs2.
  destruct (get_layer other_index _) as [s2 l']. simpl in *. subst s2.
  by destruct swap_transforms.
Qed.

Lemma apply_transforms_task_set transforms s :
  (apply_transforms_task transforms s).1 =
    set_layers (λ _, layers_ (apply_transforms_task transforms s).1) s.
Proof.
  revert s. induction transforms as [|[[[index f] d] tw] transforms IH]; intros s.
  { by destruct s. }
  rewrite apply_transforms_task_cons, apply_transforms_entry_effect.
  destruct (f _) as [dst|e]; simpl.
  - match goal with
    | |- context [apply_transforms_task transforms ?s1] => rewrite (IH s1)
    end.
    done.
  - by rewrite get_layer_set.
Qed.

Lemma apply_transform_task_set index transform mix_duration tw s :
  (apply_transform_task index transform mix_duration tw s).1 =
    set_layers (λ _, layers_ (apply_transform_task index transform mix_duration tw s).1) s.
Proof.
  rewrite apply_transform_task_effect. destruct (transform _); simpl; [done|].
  by rewrite get_layer_set.
Qed.

(** A command changes the members it is about and no other: none sends a
    frame, writes to the log, hands an event to a layer or publishes on the
    monitor when its closure runs; only [add_layer_consumer] and
    [remove_layer_consumer] change the consumer table, and they change
    nothing else; only [on_interaction] changes the event buffer. *)
Theorem run_command_changes s c :
  let s' := run_command c s in
  channel_index_ s' = channel_index_ s ∧ monitor_subject_ s' = monitor_subject_ s ∧
  sent_ s' = sent_ s ∧ delivered_ s' = delivered_ s ∧ log_ s' = log_ s ∧
  match c with
  | add_layer_consumer_command _ _ _ _ | remove_layer_consumer_command _ _ =>
      layers_ s' = layers_ s ∧ aggregator_ s' = aggregator_ s
  | on_interaction_command event =>
      layers_ s' = layers_ s ∧ layer_consumers_ s' = layer_consumers_ s ∧
      aggregator_ s' = aggregator_ s ++ [event]
  | _ => layer_consumers_ s' = layer_consumers_ s ∧ aggregator_ s' = aggregator_ s
  end.
Proof.
  destruct c; cbn [run_command]; cbv zeta;
    try rewrite apply_transforms_task_set; try rewrite apply_transform_task_set;
    try rewrite swap_layer_task_set;
    try done;
    unfold load_task, pause_task, resume_task, play_task, preview_task, stop_task,
      clear_transforms_task, get_current_transform_task, on_layer, get_layer;
    by destruct (layers_ s !! _).
Qed.

(** A command that only reads a layer makes the next pass render it: the
    keys of the map the pass returns are those it would have had, and the
    index of the query. *)
Theorem query_is_rendered format_desc index s :
  ∃ frames,
    (operator_call_task format_desc (run_command (query_command index) s)).2 =
      returns frames ∧
    dom frames = {[index]} ∪ active s.
Proof.
  destruct (operator_call_returns format_desc (run_command (query_command index) s))
    as (frames & Hret & Hdom).
  exists frames. split; [done|]. rewrite Hdom. simpl. unfold active.
  rewrite get_layer_layers, subscript_dom, get_layer_consumers. set_solver.
Qed.

End layer_table.

(** ** Batches of transforms, and their reset *)

Section transform_batches.
Context {values : Values} {ops : Collaborators}.
Implicit Types (s : impl).

(** A batch of [apply_transforms] composes. When the closure returns,
    the destination of the tween at every index is what the functions of
    the entries for that index make, one after the other in the order of
    the batch, of the destination the tween had before; an index that no
    entry names keeps its destination, and no entry touches the producer
    side of a layer. When a function throws, the closure ends there: the
    stage is the one that the entries before it leave, with the layer of
    the failing entry created by [get_layer] and its tween as it was; the
    entries after it are not applied. *)
Theorem apply_transforms_task_composes transforms s :
  match (apply_transforms_task transforms s).2 with
  | returns _ =>
      ∀ i,
        compose_dest i transforms (dest (tween_ (layer_or_new (layers_ s) i))) =
          Some (dest (tween_ (layer_or_new
                                (layers_ (apply_transforms_task transforms s).1) i))) ∧
        state_ (layer_or_new (layers_ (apply_transforms_task transforms s).1) i) =
          state_ (layer_or_new (layers_ s) i)
  | throws e =>
      ∃ (n : nat) (transform : transform_tuple_t),
        transforms !! n = Some transform ∧
        (apply_transforms_task (take n transforms) s).2 = returns () ∧
        (apply_transforms_task transforms s).1 =
          (get_layer transform.1.1.1 (apply_transforms_task (take n transforms) s).1).1 ∧
        transform.1.1.2
          (dest (tween_ (get_layer transform.1.1.1
                           (apply_transforms_task (take n transforms) s).1).2)) =
          throws e
  end.
Proof.
  revert s. induction transforms as [|[[[index f] d] tw] transforms IH]; intros s.
  { simpl. done. }
  rewrite apply_transforms_task_cons, apply_transforms_entry_effect.
  destruct (f (dest (tween_ (layer_or_new (layers_ s) index)))) as [dst|e] eqn:Hf; simpl.
  - match goal with
    | |- context [apply_transforms_task transforms ?s1] =>
        set (s1' := s1); specialize (IH s1')
    end.
    assert (∀ i, layer_or_new (layers_ s1') i =
              if decide (index = i)
              then layer_set_tween
                     (tweened_transform_new (fetch (tween_ (layer_or_new (layers_ s) i)))
                        dst d tw) (layer_or_new (layers_ s) i)
              else layer_or_new (layers_ s) i) as Hone.
    { intros i. unfold layer_or_new at 1. simpl. case_decide as Hi; subst.
      - by rewrite lookup_insert_eq.
      - by rewrite lookup_insert_ne. }
    destruct (apply_transforms_task transforms s1') as [s2 [[]|e]] eqn:Hrest; simpl in *.
    + intros i. destruct (IH i) as [Hd Hs]. rewrite Hs, <-Hd, Hone.
      case_decide as Hi; subst; simpl; [by rewrite Hf|done].
    + destruct IH as (n & transform & Hn & Hret & Hs2 & Hthrow).
      exists (S n), transform. simpl.
      rewrite apply_transforms_task_cons, apply_transforms_entry_effect, Hf.
      fold s1'. done.
  - exists 0%nat, (index, f, d, tw). simpl.
    split_and!; [done|done|done|]. by rewrite get_layer_result.
Qed.

(** After [clear_transforms()] the current transform of every index is the
    one of the default tween, also at an index without a layer; after
    [clear_transforms(index)] it is so at that index, and the current
    transform of every other index is what it was. *)
Theorem clear_transforms_resets index s j :
  (get_current_transform_task j (clear_all_transforms_task s)).2 =
    fetch tweened_transform_default ∧
  (get_current_transform_task j (clear_transforms_task index s)).2 =
    if decide (j = index) then fetch tweened_transform_default
    else (get_current_transform_task j s).2.
Proof.
  unfold get_current_transform_task. split.
  - pose proof (get_layer_result j (clear_all_transforms_task s)) as Hl.
    destruct (get_layer j _) as [s1 l]. simpl in *. subst l.
    rewrite lookup_fmap. by destruct (layers_ s !! j).
  - pose proof (get_layer_result j (clear_transforms_task index s)) as Hl.
    pose proof (get_layer_result j s) as Hl0.
    destruct (get_layer j (clear_transforms_task index s)) as [s1 l].
    destruct (get_layer j s) as [s0 l0]. simpl in *. subst l l0.
    unfold clear_transforms_task. rewrite on_layer_layers.
    case_decide as Hj; subst.
    + by rewrite lookup_insert_eq.
    + by rewrite lookup_insert_ne.
Qed.

(** The two transform commands do the same to a layer whose tween is at
    rest, that is, whose current transform is its destination: they install
    the same tween, or throw the same exception after [get_layer]. *)
Theorem apply_transform_agrees_at_rest index transform mix_duration tw s :
  fetch (tween_ (layer_or_new (layers_ s) index)) =
    dest (tween_ (layer_or_new (layers_ s) index)) →
  apply_transform_task index transform mix_duration tw s =
  apply_transforms_task [(index, transform, mix_duration, tw)] s.
Proof.
  intros Hrest. unfold apply_transforms_task. cbn [for_each]. unfold bind, ret.
  rewrite apply_transforms_entry_effect, apply_transform_task_effect, Hrest.
  by destruct (transform _).
Qed.

End transform_batches.

(** ** Routes: registering and removing consumers *)

Section routes.
Context {values : Values} {ops : Collaborators}.
Implicit Types (s : impl).

Lemma set_layer_consumers_id f s :
  f (layer_consumers_ s) = layer_consumers_ s → set_layer_consumers f s = s.
Proof. destruct s. unfold set_layer_consumers. simpl. by intros ->. Qed.

Lemma add_layer_consumer_task_table token layer mode consumer s :
  let layer_map := default ∅ (layer_consumers_ s !! layer) in
  layer_consumers_ (add_layer_consumer_task token layer mode consumer s) =
    <[layer := match layer_map !! token with
               | Some _ => layer_map
               | None => <[token := (mode, consumer)]> layer_map
               end]> (layer_consumers_ s).
Proof. simpl. by rewrite insert_subscript, default_subscript. Qed.

(** The first registration of a token on a layer wins: registering the
    token again on that layer, with whatever mode and consumer, changes
    nothing. *)
Theorem add_layer_consumer_first_wins token layer mode consumer mode' consumer' s :
  add_layer_consumer_task token layer mode' consumer'
    (add_layer_consumer_task token layer mode consumer s) =
  add_layer_consumer_task token layer mode consumer s.
Proof.
  apply set_layer_consumers_id.
  rewrite insert_subscript, default_subscript.
  rewrite add_layer_consumer_task_table. rewrite lookup_insert_eq. simpl.
  destruct (default ∅ (layer_consumers_ s !! layer) !! token) eqn:E.
  - rewrite E. by rewrite insert_insert_eq.
  - rewrite lookup_insert_eq. by rewrite insert_insert_eq.
Qed.

(** Registering a token that the layer does not have yet and removing it
    again gives the stage back as it was, unless the layer had an entry
    with an empty map (as a render pass leaves): that entry goes with the
    token. *)
Theorem add_then_remove_layer_consumer token layer mode consumer s :
  default ∅ (layer_consumers_ s !! layer) !! token = None →
  layer_consumers_ s !! layer ≠ Some ∅ →
  remove_layer_consumer_task token layer
    (add_layer_consumer_task token layer mode consumer s) = s.
Proof.
  intros Htoken Hne.
  destruct s as [ci ls lc ag mon se de lo].
  unfold remove_layer_consumer_task, add_layer_consumer_task, set_layer_consumers.
  simpl in *. f_equal.
  rewrite !default_subscript, Htoken, !insert_subscript, lookup_insert_eq. simpl.
  rewrite delete_insert_id by done.
  rewrite subscript_present by (by rewrite lookup_insert_eq).
  destruct (lc !! layer) as [m|] eqn:E; simpl.
  - rewrite decide_False by congruence. rewrite insert_insert_eq. by apply insert_id.
  - rewrite decide_True by done. by rewrite delete_insert_id.
Qed.

(** Removing a token twice is removing it once. *)
Theorem remove_layer_consumer_idempotent token layer s :
  remove_layer_consumer_task token layer (remove_layer_consumer_task token layer s) =
  remove_layer_consumer_task token layer s.
Proof.
  destruct s as [ci ls lc ag mon se de lo].
  unfold remove_layer_consumer_task, set_layer_consumers. simpl. f_equal.
  rewrite !default_subscript.
  set (layer_map := delete token (default ∅ (lc !! layer))).
  destruct (decide (layer_map = ∅)) as [Hm|Hm].
  - rewrite (subscript_insert_default ∅ layer lc), delete_insert_eq.
    rewrite (subscript_insert_default ∅ layer (delete layer lc)).
    rewrite lookup_delete_eq. simpl.
    rewrite delete_empty, decide_True by done.
    by rewrite delete_insert_eq, delete_delete_eq.
  - rewrite !insert_subscript, lookup_insert_eq. simpl.
    assert (delete token layer_map = layer_map) as -> by apply delete_delete_eq.
    rewrite decide_False by done. by rewrite insert_insert_eq.
Qed.

(** Removing a token that the layer does not have changes nothing, unless
    the layer had an entry with an empty map: that entry is erased. *)
Theorem remove_absent_layer_consumer token layer s :
  default ∅ (layer_consumers_ s !! layer) !! token = None →
  remove_layer_consumer_task token layer s =
    match layer_consumers_ s !! layer with
    | Some m => if decide (m = ∅) then set_layer_consumers (delete layer) s else s
    | None => s
    end.
Proof.
  intros Htoken.
  destruct s as [ci ls lc ag mon se de lo].
  unfold remove_layer_consumer_task, set_layer_consumers. simpl in *.
  rewrite default_subscript, delete_id by done.
  destruct (lc !! layer) as [m|] eqn:E; simpl.
  - rewrite subscript_present by (by rewrite E).
    destruct (decide (m = ∅)) as [->|Hm]; [done|]. by rewrite insert_id.
  - rewrite decide_True by done.
    unfold subscript. rewrite E. by rewrite delete_insert_id.
Qed.

End routes.

(** ** Swapping single layers *)

Section layer_swaps.
Context {values : Values} {ops : Collaborators}.
Implicit Types (s a b : impl) (w : world).

(** The intra-stage swap does not depend on the order of its two indices. *)
Theorem swap_layer_task_symmetric index other_index swap_transforms s :
  swap_layer_task index other_index swap_transforms s =
  swap_layer_task other_index index swap_transforms s.
Proof.
  rewrite (swap_layer_task_set index), (swap_layer_task_set other_index).
  unfold set_layers. f_equal. apply map_eq. intros k.
  rewrite !swap_layer_task_lookup.
  destruct (decide (index = other_index)) as [->|Hne].
  { by destruct (decide (other_index = other_index)). }
  rewrite (decide_False (P := other_index = index)) by done.
  repeat case_decide; subst; done.
Qed.

(** Swapping a layer with itself changes no layer; it creates the layer
    when the table had none at the index. *)
Theorem swap_layer_task_same_index index swap_transforms s :
  layers_ (swap_layer_task index index swap_transforms s) =
    subscript (layer_new (Some index)) index (layers_ s).
Proof.
  apply map_eq. intros k.
  rewrite swap_layer_task_lookup, subscript_lookup. unfold layer_or_new.
  repeat (case_decide; subst; simpl); try done.
  destruct swap_transforms; [done|]. by rewrite layer_set_tween_own.
Qed.

(** Swapping the same two layers of a stage twice gives back the layer
    table, with a new layer at each of the two indices that had none. *)
Theorem swap_layer_task_twice index other_index swap_transforms s :
  layers_ (swap_layer_task index other_index swap_transforms
             (swap_layer_task index other_index swap_transforms s)) =
    subscript (layer_new (Some other_index)) other_index
      (subscript (layer_new (Some index)) index (layers_ s)).
Proof.
  apply map_eq. intros k.
  rewrite swap_layer_task_lookup. unfold layer_or_new.
  rewrite !swap_layer_task_lookup, !subscript_lookup. unfold layer_or_new.
  repeat (case_decide; subst; simpl); try done;
    destruct swap_transforms; simpl; try done;
    by destruct (default _ _).
Qed.

Lemma swap_layer_func_layers index other_index swap_transforms a b :
  let my_layer := layer_or_new (layers_ a) index in
  let other_layer := layer_or_new (layers_ b) other_index in
  layers_ (swap_layer_func index other_index swap_transforms a b).1 =
    <[index := if swap_transforms then other_layer
               else layer_set_tween (tween_ my_layer) other_layer]> (layers_ a) ∧
  layers_ (swap_layer_func index other_index swap_transforms a b).2 =
    <[other_index := if swap_transforms then my_layer
                     else layer_set_tween (tween_ other_layer) my_layer]> (layers_ b).
Proof.
  unfold swap_layer_func, get_layer, layer_or_new.
  destruct (layers_ a !! index) eqn:Ea, (layers_ b !! other_index) eqn:Eb,
    swap_transforms; simpl; by rewrite ?insert_insert_eq.
Qed.

(** The cross-stage swap of one layer, done twice, gives each stage its
    layer back, content and tween, with a new layer where it had none. *)
Theorem swap_layer_func_twice index other_index swap_transforms a b :
  let once := swap_layer_func index other_index swap_transforms a b in
  let twice := swap_layer_func index other_index swap_transforms once.1 once.2 in
  layers_ twice.1 = subscript (layer_new (Some index)) index (layers_ a) ∧
  layers_ twice.2 = subscript (layer_new (Some other_index)) other_index (layers_ b).
Proof.
  intros once twice.
  destruct (swap_layer_func_layers index other_index swap_transforms once.1 once.2)
    as [H1 H2].
  destruct (swap_layer_func_layers index other_index swap_transforms a b) as [H3 H4].
  fold once in H3, H4. fold twice in H1, H2.
  rewrite H1, H2. unfold layer_or_new. rewrite H3, H4, !lookup_insert_eq. simpl.
  rewrite !insert_insert_eq, !subscript_insert_default. unfold layer_or_new.
  destruct swap_transforms; [done|].
  split; f_equal; by destruct (default _ _).
Qed.

End layer_swaps.

(** ** Executors: where a closure is queued and when it runs *)

Section scheduling.
Context {values : Values} {ops : Collaborators}.
Implicit Types (s : impl) (w : world).

Lemma pending_begin_invoke this p (f : closure) priority w :
  pending (begin_invoke this f priority w).1 p =
    if decide (p = this) then pending w this ++ [(priority, f)] else pending w p.
Proof.
  unfold begin_invoke, pending. simpl. case_decide; subst.
  - by rewrite lookup_insert_eq.
  - by rewrite lookup_insert_ne.
Qed.

Lemma pending_begin_invoke_eq this (f : closure) priority w :
  pending (begin_invoke this f priority w).1 this = pending w this ++ [(priority, f)].
Proof. by rewrite pending_begin_invoke, decide_True. Qed.

Lemma pending_begin_invoke_ne this p (f : closure) priority w :
  p ≠ this → pending (begin_invoke this f priority w).1 p = pending w p.
Proof. intros. by rewrite pending_begin_invoke, decide_False. Qed.

Lemma run_executor_idle this w :
  pending w this = [] → objects (run_executor this w) = objects w.
Proof. intros Hidle. unfold run_executor. by rewrite Hidle. Qed.

Lemma pending_run_executor this p w :
  pending (run_executor this w) p = if decide (p = this) then [] else pending w p.
Proof.
  unfold run_executor, pending. simpl. case_decide; subst.
  - by rewrite lookup_insert_eq.
  - by rewrite lookup_insert_ne.
Qed.

Lemma run_executor_one this (f : closure) w :
  pending w this = [(high_priority, f)] → objects (run_executor this w) = f (objects w).
Proof. intros Hq. unfold run_executor. by rewrite Hq. Qed.

(** Two stages with different channel indices agree on the executor that
    serves a closure for both of them: whichever of the two is asked, the
    closure goes to the executor of the stage with the lower channel
    index. *)
Theorem invoke_both_lower_channel_first this other (func : closure) w :
  channel_index_of w this ≠ channel_index_of w other →
  let first :=
    if channel_index_of w other <? channel_index_of w this then other else this in
  channel_index_of w first =
    Z.min (channel_index_of w this) (channel_index_of w other) ∧
  invoke_both this other func w = begin_invoke first func high_priority w ∧
  invoke_both other this func w = begin_invoke first func high_priority w.
Proof.
  intros Hne. unfold invoke_both, invoke.
  destruct (Z.ltb_spec (channel_index_of w other) (channel_index_of w this)) as [Hlt|Hge].
  - rewrite (proj2 (Z.ltb_ge _ _)) by lia. split_and!; [lia|done|done].
  - rewrite (proj2 (Z.ltb_lt _ _)) by lia. split_and!; [lia|done|done].
Qed.

(** Whichever executor [invoke_both] picks, the closure has run exactly
    once when the workers of both stages have run, in either order, and
    nothing is left in their queues. *)
Theorem invoke_both_runs_once this other (func : closure) w :
  pending w this = [] → pending w other = [] →
  let w1 := (invoke_both this other func w).1 in
  objects (run_executor other (run_executor this w1)) = func (objects w) ∧
  objects (run_executor this (run_executor other w1)) = func (objects w) ∧
  pending (run_executor other (run_executor this w1)) this = [] ∧
  pending (run_executor other (run_executor this w1)) other = [].
Proof.
  intros Hthis Hother w1.
  assert (∀ p q, pending (run_executor q (run_executor p w1)) p = []) as Hp.
  { intros p q. rewrite !pending_run_executor. repeat case_decide; done. }
  assert (∀ p q, pending (run_executor q (run_executor p w1)) q = []) as Hq.
  { intros p q. rewrite !pending_run_executor. repeat case_decide; done. }
  split_and!; [| |apply Hp|apply Hq].
  - unfold w1, invoke_both, invoke. destruct (_ <? _).
    + destruct (decide (other = this)) as [->|Hne].
      * rewrite run_executor_idle by (rewrite pending_run_executor; by case_decide).
        rewrite (run_executor_one this func); [done|]. by rewrite pending_begin_invoke_eq, Hthis.
      * rewrite (run_executor_one other func).
        -- rewrite run_executor_idle; [done|].
           by rewrite pending_begin_invoke_ne by done.
        -- rewrite pending_run_executor, decide_False by done.
           by rewrite pending_begin_invoke_eq, Hother.
    + rewrite run_executor_idle.
      * rewrite (run_executor_one this func); [done|]. by rewrite pending_begin_invoke_eq, Hthis.
      * rewrite pending_run_executor. case_decide; [done|].
        by rewrite pending_begin_invoke_ne by done.
  - unfold w1, invoke_both, invoke. destruct (_ <? _).
    + rewrite run_executor_idle.
      * rewrite (run_executor_one other func); [done|]. by rewrite pending_begin_invoke_eq, Hother.
      * rewrite pending_run_executor. case_decide; [done|].
        by rewrite pending_begin_invoke_ne by done.
    + destruct (decide (other = this)) as [->|Hne].
      * rewrite run_executor_idle by (rewrite pending_run_executor; by case_decide).
        rewrite (run_executor_one this func); [done|]. by rewrite pending_begin_invoke_eq, Hthis.
      * rewrite (run_executor_one this func).
        -- rewrite run_executor_idle; [done|].
           by rewrite pending_begin_invoke_ne by done.
        -- rewrite pending_run_executor, decide_False by done.
           by rewrite pending_begin_invoke_eq, Hthis.
Qed.

Lemma alter_publish_none this w :
  objects w = alter (λ s, foldl (λ s m, publish m s) s []) this (objects w).
Proof. symmetry. by apply alter_id. Qed.

(** A call of a member function publishes its monitor messages and puts
    the closure of the command at the end of the stage's executor. *)
Lemma submit_is_queued this c w :
  objects (submit this c w) =
    alter (λ s, foldl (λ s m, publish m s) s (messages c)) this (objects w) ∧
  executors (submit this c w) =
    <[this := pending w this ++ [(high_priority, on_this this (run_command c))]]>
      (executors w).
Proof.
  destruct c; (split; [first [done|symmetry; by apply alter_id]|done]).
Qed.

Lemma submit_all_is_queued this cs w :
  objects (foldl (λ w c, submit this c w) w cs) =
    alter (λ s, foldl (λ s m, publish m s) s (cs ≫= messages)) this (objects w) ∧
  pending (foldl (λ w c, submit this c w) w cs) this =
    pending w this ++ ((λ c, (high_priority, on_this this (run_command c))) <$> cs).
Proof.
  revert w. induction cs as [|c cs IH]; intros w; simpl.
  { rewrite app_nil_r. split; [apply alter_publish_none|done]. }
  destruct (IH (submit this c w)) as [-> ->].
  destruct (submit_is_queued this c w) as [-> Hq].
  split.
  - rewrite alter_alter_eq. apply alter_ext. intros s _. simpl. by rewrite foldl_app.
  - unfold pending at 1. rewrite Hq, lookup_insert_eq. simpl. by rewrite <-app_assoc.
Qed.

Lemma run_closures this cs (h : gmap positive impl) :
  foldl (λ h (t : task_priority * closure), t.2 h) h
    ((λ c, (high_priority, on_this this (run_command c))) <$> cs) =
  alter (λ s, foldl (λ s c, run_command c s) s cs) this h.
Proof.
  revert h. induction cs as [|c cs IH]; intros h; simpl.
  { symmetry. by apply alter_id. }
  rewrite IH. unfold on_this. by rewrite alter_alter_eq.
Qed.

Lemma filter_high_commands this cs :
  filter (λ t : task_priority * closure, is_higher t = true)
    ((λ c, (high_priority, on_this this (run_command c))) <$> cs) = [] ∧
  filter (λ t : task_priority * closure, is_higher t = false)
    ((λ c, (high_priority, on_this this (run_command c))) <$> cs) =
  (λ c, (high_priority, on_this this (run_command c))) <$> cs.
Proof.
  induction cs as [|c cs [IH1 IH2]]; [done|]. rewrite fmap_cons.
  rewrite filter_cons_False by done. rewrite filter_cons_True by done.
  by rewrite IH1, IH2.
Qed.

(** Commands take effect in the order of their calls: when the worker of
    an idle stage has run, the stage is what the closures of the commands
    make of it one after the other, and its monitor has the messages of
    all the calls, which were published before any closure ran. *)
Theorem commands_run_in_order this cs s w :
  pending w this = [] → objects w !! this = Some s →
  let w' := run_executor this (foldl (λ w c, submit this c w) w cs) in
  objects w' =
    <[this := foldl (λ s c, run_command c s)
                (foldl (λ s m, publish m s) s (cs ≫= messages)) cs]> (objects w) ∧
  pending w' this = [].
Proof.
  intros Hidle Hs w'. split; [|unfold w'; by rewrite pending_run_executor, decide_True].
  unfold w', run_executor.
  destruct (submit_all_is_queued this cs w) as [Hobj ->]. rewrite Hobj, Hidle. simpl.
  destruct (filter_high_commands this cs) as [-> ->]. simpl.
  rewrite run_closures, alter_alter_eq.
  apply map_eq. intros p. destruct (decide (p = this)) as [->|Hp].
  - by rewrite lookup_alter_eq, lookup_insert_eq, Hs.
  - by rewrite lookup_alter_ne, lookup_insert_ne.
Qed.

End scheduling.

(** ** What a render pass puts into its map, and what it leaves alone *)

Section render_output.
Context {values : Values} {ops : Collaborators}.
Implicit Types (s : impl) (p : pass_state) (X : gset Z).

Lemma registered_keeps (lc lc' : gmap Z (gmap Z layer_consumer_entry)) c :
  (∀ k m, m ≠ ∅ → lc !! k = Some m → lc' !! k = Some m) →
  registered lc c → registered lc' c.
Proof.
  intros Hk (k & m & token & mode & Hm & Htoken). exists k, m, token, mode.
  split; [|done]. apply Hk; [|done]. intros ->. by rewrite lookup_empty in Htoken.
Qed.

Global Instance within_preorder X : PreOrder (within X).
Proof.
  split.
  - intros p. split; [done|done|done|]. exists []. rewrite app_nil_r. split; [done|].
    intros x Hx. by apply elem_of_nil in Hx.
  - intros p1 p2 p3 [L1 F1 R1 (sends1 & S1 & G1)] [L2 F2 R2 (sends2 & S2 & G2)]. split.
    + intros j Hj. by rewrite L2, L1.
    + intros j Hj. by rewrite F2, F1.
    + intros k m Hm. by rewrite R2, R1.
    + exists (sends1 ++ sends2). split; [by rewrite S2, S1, app_assoc|].
      intros x [Hx|Hx]%elem_of_app; [by apply G1|].
      eapply registered_keeps; [|by apply G2]. intros k m Hm Hk. by apply R1.
Qed.

Lemma within_weaken X Y p p' : X ⊆ Y → within X p p' → within Y p p'.
Proof.
  intros HXY [L F R S]. split; [| |done|done].
  - intros j Hj. apply L. set_solver.
  - intros j Hj. apply F. set_solver.
Qed.

Lemma send_loop_consumers (pick : layer_consumer_entry → draw_frame) cs s :
  layer_consumers_ (for_each (λ c, send c.2 (pick c)) cs s).1 = layer_consumers_ s.
Proof.
  revert s. induction cs as [|c cs IH]; intros s; simpl; [done|].
  unfold bind.
  change (send c.2 (pick c) s) with (record_sent c.2 (pick c) s, consumer_send c.2 (pick c)).
  destruct (consumer_send c.2 (pick c)) as [[]|e]; simpl; [|done].
  by rewrite IH.
Qed.

Lemma sent_of_served (pick : layer_consumer_entry → draw_frame) (n : nat)
    (cm : gmap Z layer_consumer_entry) (x : write_frame_consumer * draw_frame) :
  x ∈ (λ c : layer_consumer_entry, (c.2, pick c)) <$>
        take n (parallel_order (values_asc cm)) →
  ∃ e, e ∈ values_asc cm ∧ x.1 = e.2.
Proof.
  intros (c & -> & Hc)%list_elem_of_fmap. exists c. split; [|done].
  apply elem_of_take in Hc as (i & Hi & _). apply list_elem_of_lookup_2 in Hi.
  by rewrite elem_of_parallel_order in Hi.
Qed.

(** What [draw] does to the stage and to the map of the pass. *)
Lemma draw_effect index format_desc s frames :
  let l0 := default (layer_new None) (layers_ s !! index) in
  let cm := default ∅ (layer_consumers_ s !! index) in
  let r := draw index format_desc (s, frames) in
  layer_consumers_ r.1.1 = subscript ∅ index (layer_consumers_ s) ∧
  (∀ j, j ≠ index → layers_ r.1.1 !! j = layers_ s !! j) ∧
  (∀ j, j ≠ index → r.1.2 !! j = frames !! j) ∧
  (∃ sends, sent_ r.1.1 = sent_ s ++ sends ∧
            ∀ x, x ∈ sends → ∃ e, e ∈ values_asc cm ∧ x.1 = e.2) ∧
  (r.2 = returns () →
   ∃ l1 raw transformed,
     layer_receive l0 format_desc = (l1, returns (raw, transformed)) ∧
     r.1.2 = <[index := transformed]> frames ∧
     layers_ r.1.1 !! index =
       Some (if existsb (λ c : layer_consumer_entry, bool_decide (c.1 ≠ foreground))
                   (values_asc cm)
             then (layer_receive_background l1).1 else l1)).
Proof.
  intros l0 cm r. unfold r, draw, bind, on_impl, read_impl, call_layer, ret,
    parallel_for_each. simpl.
  rewrite !default_subscript. fold l0.
  assert (∀ (l : layer) j, j ≠ index →
            <[index := l]> (subscript (layer_new None) index (layers_ s)) !! j =
              layers_ s !! j) as Hother.
  { intros l j Hj. by rewrite lookup_insert_ne, subscript_lookup, decide_False. }
  assert (∃ sends : list (write_frame_consumer * draw_frame),
            sent_ s = sent_ s ++ sends ∧
            ∀ x, x ∈ sends → ∃ e, e ∈ values_asc cm ∧ x.1 = e.2) as Hnone.
  { exists []. rewrite app_nil_r. split; [done|]. intros x Hx.
    by apply elem_of_nil in Hx. }
  destruct (layer_receive l0 format_desc) as [l1 [[raw transformed]|e]] eqn:Hrecv;
    simpl; [|split_and!; try done; intros j Hj; by rewrite Hother].
  rewrite default_subscript. fold cm.
  destruct (decide (cm = ∅)) as [Hcm|Hcm]; simpl.
  { split_and!; try done;
      try (intros j Hj; first [by rewrite Hother|by rewrite lookup_insert_ne]).
    intros _. exists l1, raw, transformed. split_and!; [done|done|].
    by rewrite Hcm, values_asc_empty, lookup_insert_eq. }
  destruct (existsb _ (values_asc cm)) eqn:Hany; simpl.
  - rewrite lookup_insert_eq. simpl.
    destruct (layer_receive_background l1) as [l2 [bg|e]] eqn:Hbg; simpl;
      [|split_and!; try done; intros j Hj; by rewrite lookup_insert_ne, Hother].
    rewrite lookup_insert_eq. simpl.
    set (pick := λ c : layer_consumer_entry,
           if bool_decide (c.1 = background) ||
              bool_decide (c.1 = next_producer) && layer_has_background l2
           then bg else raw).
    erewrite (for_each_ext _ (λ c, send c.2 (pick c)));
      [|intros c s'; unfold pick; by destruct (_ || _)].
    match goal with
    | |- context [for_each _ _ ?s1] =>
        destruct (send_loop_sent pick (parallel_order (values_asc cm)) s1)
          as (n & Hsent & Hlayers & _);
        pose proof (send_loop_consumers pick (parallel_order (values_asc cm)) s1) as Hlc;
        destruct (for_each (λ c, send c.2 (pick c)) (parallel_order (values_asc cm)) s1)
          as [s' res]
    end.
    simpl in *.
    assert (∀ j, j ≠ index → layers_ s' !! j = layers_ s !! j) as Hl.
    { intros j Hj. by rewrite Hlayers, lookup_insert_ne, Hother. }
    assert (∃ sends, sent_ s' = sent_ s ++ sends ∧
              ∀ x, x ∈ sends → ∃ e, e ∈ values_asc cm ∧ x.1 = e.2) as Hs.
    { eexists. split; [exact Hsent|]. apply sent_of_served. }
    destruct res as [[]|e]; simpl; split_and!; try done.
    + intros j Hj. by rewrite lookup_insert_ne.
    + intros _. exists l1, raw, transformed. split_and!; [done|done|].
      by rewrite Hlayers, lookup_insert_eq, Hbg.
  - set (pick := λ c : layer_consumer_entry,
           if bool_decide (c.1 = background) ||
              bool_decide (c.1 = next_producer) && false
           then draw_frame_empty else raw).
    erewrite (for_each_ext _ (λ c, send c.2 (pick c)));
      [|intros c s'; unfold pick; by destruct (_ || _)].
    match goal with
    | |- context [for_each _ _ ?s1] =>
        destruct (send_loop_sent pick (parallel_order (values_asc cm)) s1)
          as (n & Hsent & Hlayers & _);
        pose proof (send_loop_consumers pick (parallel_order (values_asc cm)) s1) as Hlc;
        destruct (for_each (λ c, send c.2 (pick c)) (parallel_order (values_asc cm)) s1)
          as [s' res]
    end.
    simpl in *.
    assert (∀ j, j ≠ index → layers_ s' !! j = layers_ s !! j) as Hl.
    { intros j Hj. by rewrite Hlayers, Hother. }
    assert (∃ sends, sent_ s' = sent_ s ++ sends ∧
              ∀ x, x ∈ sends → ∃ e, e ∈ values_asc cm ∧ x.1 = e.2) as Hs.
    { eexists. split; [exact Hsent|]. apply sent_of_served. }
    destruct res as [[]|e]; simpl; split_and!; try done.
    + intros j Hj. by rewrite lookup_insert_ne.
    + intros _. exists l1, raw, transformed. split_and!; [done|done|].
      by rewrite Hlayers, lookup_insert_eq.
Qed.

Lemma nonempty_subscript (lc : gmap Z (gmap Z layer_consumer_entry)) index k m :
  m ≠ ∅ → subscript ∅ index lc !! k = Some m ↔ lc !! k = Some m.
Proof.
  intros Hm. rewrite subscript_lookup. case_decide; [subst|done].
  destruct (lc !! k) as [m'|]; simpl; [done|]. split; [|done]. by intros [= <-].
Qed.

Lemma draw_within index format_desc p :
  within {[index]} p (draw index format_desc p).1.
Proof.
  destruct p as [s frames].
  destruct (draw_effect index format_desc s frames)
    as (Hlc & Hl & Hf & (sends & Hsent & Hto) & _).
  split; simpl.
  - intros j Hj. apply Hl. set_solver.
  - intros j Hj. apply Hf. set_solver.
  - intros k m Hm. rewrite Hlc. by apply nonempty_subscript.
  - exists sends. split; [done|]. intros [c f] Hx.
    destruct (Hto _ Hx) as ([mode c'] & [token Htoken]%elem_of_values_asc & Hc).
    simpl in *. subst c'.
    exists index, (default ∅ (layer_consumers_ s !! index)), token, mode.
    split; [|done]. destruct (layer_consumers_ s !! index); [done|].
    simpl in Htoken. by rewrite lookup_empty in Htoken.
Qed.

Lemma deliver_tables index event s :
  dom (layers_ (deliver index event s).1) = dom (layers_ s) ∧
  layer_consumers_ (deliver index event s).1 = layer_consumers_ s ∧
  sent_ (deliver index event s).1 = sent_ s.
Proof.
  unfold deliver. destruct (layers_ s !! index) as [l|] eqn:E; [|done].
  destruct (layer_on_interaction l event) as [l' r]. simpl.
  split; [|done]. rewrite dom_insert_L. apply elem_of_dom_2 in E. set_solver.
Qed.

Lemma flush_events_tables events s :
  dom (layers_ (flush_events events s).1) = dom (layers_ s) ∧
  layer_consumers_ (flush_events events s).1 = layer_consumers_ s ∧
  sent_ (flush_events events s).1 = sent_ s.
Proof.
  revert s. induction events as [|e events IH]; intros s; simpl; [done|].
  unfold bind, handle_event. destruct (event_position e) as [x y].
  destruct (collission_detect x y _) as [[t index]|].
  - pose proof (deliver_tables index e (set_aggregator (λ _, events) s)) as Hd.
    destruct (deliver index e _) as [s' [[]|ex]]; simpl in *; [|done].
    destruct (IH s') as (-> & -> & ->). done.
  - simpl. by destruct (IH (set_aggregator (λ _, events) s)) as (-> & -> & ->).
Qed.

Lemma translate_and_send_within X s frames :
  dom (layers_ s) ⊆ X →
  within X (s, frames) (on_impl translate_and_send (s, frames)).1.
Proof.
  intros HX. unfold on_impl, translate_and_send.
  destruct (flush_events_tables (aggregator_ s) s) as (Hl & Hlc & Hsent).
  destruct (flush_events (aggregator_ s) s) as [s' r]. simpl in *.
  split; simpl.
  - intros j Hj.
    rewrite (not_elem_of_dom_1 (layers_ s) j) by set_solver.
    apply not_elem_of_dom. rewrite Hl. set_solver.
  - done.
  - intros k m _. by rewrite Hlc.
  - exists []. rewrite app_nil_r. split; [done|]. intros x Hx.
    by apply elem_of_nil in Hx.
Qed.

(** The try block, run on the stage and the map that its seeding loops
    prepare, stays within the indices that the pass draws. *)
Lemma try_block_within format_desc s frames :
  ∃ frames2 lc2,
    (∀ k m, m ≠ ∅ → lc2 !! k = Some m ↔ layer_consumers_ s !! k = Some m) ∧
    within (active s) (set_layer_consumers (λ _, lc2) s, frames2)
      (try_block format_desc (s, frames)).1.
Proof.
  destruct (try_block_seed format_desc s frames)
    as (frames2 & lc2 & indices & -> & _ & Hix & _ & _ & _ & Hlc2).
  exists frames2, lc2. split.
  { intros k m Hm. rewrite Hlc2. case_decide; [|done].
    destruct (layer_consumers_ s !! k) as [m'|]; simpl; [done|].
    split; [|done]. by intros [= <-]. }
  apply (bind_fst_rel (within _)); [|intros _ p1].
  - apply translate_and_send_within. simpl. unfold active. set_solver.
  - apply (for_each_rel (within _)). intros index p2 Hin.
    eapply within_weaken; [|apply draw_within].
    apply elem_of_parallel_order, Hix in Hin. set_solver.
Qed.

(** A pass changes no consumer map that has a consumer, whatever its
    outcome, and it draws again what it drew: the indices that the next
    pass will draw are among those of this pass, and they are the same
    when no exception reached the handler; the layer table then has
    exactly these indices. *)
Theorem render_keeps_active format_desc s :
  let s' := (operator_call_task format_desc s).1 in
  (∀ k m, m ≠ ∅ →
     layer_consumers_ s' !! k = Some m ↔ layer_consumers_ s !! k = Some m) ∧
  active s' ⊆ active s ∧
  ((try_block format_desc (s, ∅)).2 = returns () →
   dom (layers_ s') = active s ∧ active s' = active s).
Proof.
  intros s'.
  destruct (try_block_within format_desc s ∅) as (frames2 & lc2 & Hlc2 & [Hl _ Hr _]).
  pose proof (try_block_returns_layers format_desc s ∅) as Hall.
  unfold s', operator_call_task in *.
  destruct (try_block format_desc (s, ∅)) as [[s2 frames] r]. simpl in *.
  assert (∀ k m, m ≠ ∅ →
            layer_consumers_ s2 !! k = Some m ↔ layer_consumers_ s !! k = Some m)
    as Hroutes.
  { intros k m Hm. by rewrite Hr, Hlc2. }
  assert (dom (layers_ s2) ⊆ active s) as Hdom.
  { intros k Hk. destruct (decide (k ∈ active s)) as [|Hout]; [done|].
    apply elem_of_dom in Hk. rewrite (Hl k Hout) in Hk. apply elem_of_dom in Hk.
    unfold active. set_solver. }
  assert (∀ layers : gmap Z layer, dom layers ⊆ active s →
            dom layers ∪ dom (filter (λ kv, kv.2 ≠ ∅) (layer_consumers_ s2)) ⊆ active s)
    as Hsub.
  { intros layers Hlayers k [Hk|Hk]%elem_of_union; [by apply Hlayers|].
    apply elem_of_dom in Hk as [m [Hk Hm]%map_lookup_filter_Some]. simpl in Hm.
    apply elem_of_active. right. exists m. split; [|done]. by apply Hroutes. }
  destruct r as [[]|e]; simpl.
  - split; [done|]. split; [by apply Hsub|]. intros _.
    assert (dom (layers_ s2) = active s) as Heq by (specialize (Hall eq_refl); set_solver).
    split; [done|]. apply set_eq. intros k. split; [by apply Hsub|].
    intros Hk. unfold active at 1. set_solver.
  - split; [done|]. split; [|done]. apply Hsub. set_solver.
Qed.

(** Whatever a pass sends, it sends to a consumer of the consumer table:
    the frames sent are appended to those sent before, and each of them
    went to a consumer that some route of the table names. *)
Theorem render_sends_to_routes format_desc s :
  ∃ sends,
    sent_ (operator_call_task format_desc s).1 = sent_ s ++ sends ∧
    ∀ x, x ∈ sends → registered (layer_consumers_ s) x.1.
Proof.
  destruct (try_block_within format_desc s ∅)
    as (frames2 & lc2 & Hlc2 & [_ _ _ (sends & Hsent & Hto)]).
  unfold operator_call_task.
  destruct (try_block format_desc (s, ∅)) as [[s2 frames] r]. simpl in *.
  exists sends. split; [by destruct r as [[]|e]|].
  intros x Hx. eapply registered_keeps; [|by apply Hto].
  intros k m Hm Hk. by apply Hlc2.
Qed.

(** When [draw] returns it has asked the layer at the index (a new one
    when the table had none) for its frame, and for its background frame
    only when some consumer of the index is not in foreground mode; the
    layer these calls leave is in the table, the transformed frame is in
    the map of the pass under the index, and no other entry of the map or
    of the table has changed. *)
Theorem draw_puts_transformed_frame index format_desc s frames :
  (draw index format_desc (s, frames)).2 = returns () →
  ∃ l1 raw transformed,
    layer_receive (default (layer_new None) (layers_ s !! index)) format_desc =
      (l1, returns (raw, transformed)) ∧
    (draw index format_desc (s, frames)).1.2 = <[index := transformed]> frames ∧
    layers_ (draw index format_desc (s, frames)).1.1 =
      <[index := if existsb (λ c : layer_consumer_entry, bool_decide (c.1 ≠ foreground))
                      (values_asc (default ∅ (layer_consumers_ s !! index)))
                 then (layer_receive_background l1).1 else l1]> (layers_ s).
Proof.
  intros Hret.
  destruct (draw_effect index format_desc s frames) as (_ & Hl & _ & _ & Hr).
  destruct (Hr Hret) as (l1 & raw & transformed & Hrecv & Hframes & Hlayer).
  exists l1, raw, transformed. split_and!; [done|done|].
  apply map_eq. intros j. destruct (decide (j = index)) as [->|Hj].
  - by rewrite Hlayer, lookup_insert_eq.
  - by rewrite lookup_insert_ne, Hl.
Qed.

Lemma draw_loop_output format_desc (xs : list Z) p :
  NoDup xs →
  (for_each (λ index, draw index format_desc) xs p).2 = returns () →
  (∀ k, k ∈ xs →
     (for_each (λ index, draw index format_desc) xs p).1.2 !! k =
       output_of format_desc (default (layer_new None) (layers_ p.1 !! k))) ∧
  (∀ j, j ∉ xs →
     (for_each (λ index, draw index format_desc) xs p).1.2 !! j = p.2 !! j ∧
     layers_ (for_each (λ index, draw index format_desc) xs p).1.1 !! j =
       layers_ p.1 !! j).
Proof.
  revert p. induction xs as [|x xs IH]; intros [s frames] Hnd Hret; simpl in *.
  { split; [|done]. intros k Hk. by apply elem_of_nil in Hk. }
  apply NoDup_cons in Hnd as [Hx Hnd]. unfold bind in *.
  destruct (draw_effect x format_desc s frames) as (_ & Hl & Hf & _ & Hr).
  destruct (draw x format_desc (s, frames)) as [p1 [[]|e]]; simpl in *; [|done].
  destruct (Hr eq_refl) as (l1 & raw & transformed & Hrecv & Hframes & _).
  destruct (IH p1 Hnd Hret) as [Hin Hout]. split.
  - intros k [->|Hk]%elem_of_cons.
    + destruct (Hout x Hx) as [-> _]. rewrite Hframes, lookup_insert_eq.
      unfold output_of. by rewrite Hrecv.
    + rewrite (Hin k Hk), Hl; [done|]. by intros ->.
  - intros j Hj. apply not_elem_of_cons in Hj as [Hjx Hj].
    destruct (Hout j Hj) as [-> ->]. by rewrite Hl, Hf.
Qed.

(** A pass without interaction events in which no exception reaches the
    handler returns, for every index it draws, the transformed frame that
    the layer it found there (a new one when there was none) gave for the
    format. *)
Theorem render_returns_layer_frames format_desc s :
  aggregator_ s = [] →
  (try_block format_desc (s, ∅)).2 = returns () →
  ∃ frames,
    (operator_call_task format_desc s).2 = returns frames ∧
    dom frames = active s ∧
    ∀ k, k ∈ active s →
      frames !! k = output_of format_desc (default (layer_new None) (layers_ s !! k)).
Proof.
  intros Hagg Hret. unfold operator_call_task.
  pose proof (try_block_frames_dom format_desc s ∅) as Hdom.
  destruct (try_block_seed format_desc s ∅)
    as (frames2 & lc2 & indices & Heq & _ & Hix & _ & _ & Hnd & _).
  rewrite Heq in Hret, Hdom |- *. clear Heq.
  unfold bind, on_impl, translate_and_send, parallel_for_each in *. simpl in *.
  rewrite Hagg in *. simpl in *.
  destruct (draw_loop_output format_desc (parallel_order indices)
              (set_layer_consumers (λ _, lc2) s, frames2)) as [Hin _];
    [by rewrite parallel_order_perm|done|].
  destruct (for_each _ (parallel_order indices) _) as [[s2 frames] r]. simpl in *.
  subst r. exists frames. split; [done|]. split; [set_solver|].
  intros k Hk. apply Hin. by apply elem_of_parallel_order, Hix.
Qed.

Lemma items_asc_empty {A} : items_asc (∅ : gmap Z A) = [].
Proof. done. Qed.

Lemma flush_events_no_layers events s :
  layers_ s = ∅ →
  flush_events events s =
    (match events with [] => s | _ => set_aggregator (λ _, []) s end, returns ()).
Proof.
  revert s. induction events as [|e events IH]; intros s Hl; [done|].
  simpl. unfold bind, handle_event. destruct (event_position e) as [x y].
  unfold collission_detect. simpl. rewrite Hl, items_asc_empty. simpl.
  rewrite IH by done. by destruct events.
Qed.

(** A pass over a stage without layers and without consumers draws
    nothing: it returns the empty map and leaves the stage as it is, but
    for the interaction events, which it drops. *)
Theorem render_of_idle_stage format_desc s :
  active s = ∅ →
  operator_call_task format_desc s = (set_aggregator (λ _, []) s, returns ∅).
Proof.
  intros Hidle. unfold operator_call_task.
  destruct (try_block_seed format_desc s ∅)
    as (frames2 & lc2 & indices & -> & Hdom & Hix & _ & _ & _ & Hlc2).
  assert (layers_ s = ∅) as Hl.
  { apply dom_empty_iff_L. unfold active in Hidle. set_solver. }
  assert (indices = []) as ->.
  { destruct indices as [|k indices]; [done|].
    assert (k ∈ active s) as Hk by (apply Hix; left). rewrite Hidle in Hk. set_solver. }
  assert (frames2 = ∅) as ->.
  { apply dom_empty_iff_L. rewrite Hdom, Hidle. set_solver. }
  assert (lc2 = layer_consumers_ s) as ->.
  { apply map_eq. intros k. rewrite Hlc2, Hl, dom_empty_L. by rewrite decide_False. }
  unfold bind, on_impl, translate_and_send, parallel_for_each. simpl.
  rewrite flush_events_no_layers by done. rewrite parallel_order_nil. simpl.
  destruct s as [ci ls lc ag mon se de lo]. simpl in *. by destruct ag.
Qed.

(** After a pass in which an exception reached the handler no layer is
    left: the next pass draws the indices that have a consumer, and no
    other. *)
Theorem render_after_exception format_desc s e :
  (try_block format_desc (s, ∅)).2 = throws e →
  active (operator_call_task format_desc s).1 =
    dom (filter (λ kv, kv.2 ≠ ∅) (layer_consumers_ s)).
Proof.
  intros Hthrow.
  destruct (try_block_within format_desc s ∅) as (frames2 & lc2 & Hlc2 & [_ _ Hr _]).
  unfold operator_call_task.
  destruct (try_block format_desc (s, ∅)) as [[s2 frames] r]. simpl in *. subst r.
  unfold active. simpl. rewrite dom_empty_L, (left_id_L ∅ (∪)).
  apply set_eq. intros k. rewrite !elem_of_dom. unfold is_Some.
  setoid_rewrite map_lookup_filter_Some. simpl.
  split; intros (m & Hk & Hm); exists m; (split; [|done]).
  - by apply Hlc2, Hr.
  - by apply Hr, Hlc2.
Qed.

End render_output.

(** * The properties on the test bench *)

Module checks.
Import bench.

(** C1. On a layer that is half way through a tween, [apply_transform]
    with the function that adds one installs the destination 6, the
    successor of the fetched offset 5, where the destination of the old
    tween is 10 and its successor is 11; [apply_transforms] installs 11. *)
Theorem apply_transform_takes_fetched_transform :
  fetch mid_tween = 5 ∧ dest mid_tween = 10 ∧
  tween_ <$> layers_ (apply_transform_task 0 move_by_one 5 () tweening_stage).1 !! 0 =
    Some {| source_ := 5; dest_ := 6; duration_ := 5; time_ := 0; tweener_ := () |} ∧
  tween_ <$>
    layers_ (apply_transforms_task [(0, move_by_one, 5%N, ())] tweening_stage).1 !! 0 =
    Some {| source_ := 5; dest_ := 11; duration_ := 5; time_ := 0; tweener_ := () |}.
Proof. by vm_compute. Qed.

(** A function that throws leaves the tween as it was; a batch ends at the
    entry whose function throws, after creating that entry's layer. *)
Example failing_transform_keeps_tween :
  (apply_transform_task 0 failing_transform 5 () tweening_stage).2 =
    throws "transform failed"%string ∧
  items_asc (layers_ (apply_transform_task 0 failing_transform 5 () tweening_stage).1) =
    [(0, make_layer 11 None mid_tween)] ∧
  (apply_transforms_task
     [(0, move_by_one, 5%N, ()); (1, failing_transform, 5%N, ());
      (2, move_by_one, 5%N, ())] tweening_stage).2 = throws "transform failed"%string ∧
  items_asc (layers_ (apply_transforms_task
     [(0, move_by_one, 5%N, ()); (1, failing_transform, 5%N, ());
      (2, move_by_one, 5%N, ())] tweening_stage).1) =
    [(0, make_layer 11 None (tweened_transform_new 5 11 5 ()));
     (1, layer_new (Some 1))].
Proof. by vm_compute. Qed.

(** The keys of a pass over a stage made by commands. *)
Lemma render_keys_witness :
  ∃ frames,
    (operator_call_task () routed_stage).2 = returns frames ∧
    dom frames = dom (layers_ routed_stage) ∪ dom (layer_consumers_ routed_stage).
Proof.
  apply (render_keys_are_layers_and_routes 1). unfold routed_stage. repeat constructor.
Defined.

Example render_keys_of_routed_stage :
  items_asc (layers_ routed_stage) = [(2, make_layer 0 (Some 6) tweened_transform_default)] ∧
  keys_asc (layer_consumers_ routed_stage) = [7] ∧
  (operator_call_task () routed_stage).2 = returns {[2 := 0; 7 := 0]}.
Proof. by vm_compute. Qed.

(** Two swaps without the transforms leave a placeholder layer on the
    stage that had no layer. *)
Lemma swap_layers_twice_leaves_placeholder :
  layers_ <$> two_stages !! 2%positive = Some ∅ ∧
  layers_ <$> on_both 1 2 (swap_layers_func false)
                (on_both 1 2 (swap_layers_func false) two_stages) !! 2%positive =
    Some {[0 := layer_new (Some 0)]} ∧
  layers_ <$> on_both 1 2 (swap_layers_func false)
                (on_both 1 2 (swap_layers_func false) two_stages) !! 2%positive ≠
    layers_ <$> two_stages !! 2%positive.
Proof. split_and!; [by vm_compute..|]. vm_compute. discriminate. Qed.

(** The two stages under one and two swaps. *)
Lemma swap_layers_twice_witness :
  on_both 1 2 (swap_layers_func true)
    (on_both 1 2 (swap_layers_func true) two_stages) = two_stages ∧
  ∃ a1 b1 a2 b2,
    on_both 1 2 (swap_layers_func false) two_stages !! 1%positive = Some a1 ∧
    on_both 1 2 (swap_layers_func false) two_stages !! 2%positive = Some b1 ∧
    on_both 1 2 (swap_layers_func false)
      (on_both 1 2 (swap_layers_func false) two_stages) !! 1%positive = Some a2 ∧
    on_both 1 2 (swap_layers_func false)
      (on_both 1 2 (swap_layers_func false) two_stages) !! 2%positive = Some b2 ∧
    tweens_kept (layers_ stage_a) (layers_ a1) ∧
    tweens_kept (layers_ stage_b) (layers_ b1) ∧
    restored_with_placeholders (layers_ stage_a) (layers_ a2) (layers_ stage_b) ∧
    restored_with_placeholders (layers_ stage_b) (layers_ b2) (layers_ stage_a).
Proof.
  apply (swap_layers_twice 1 2 stage_a stage_b two_stages);
    [discriminate|reflexivity|reflexivity].
Defined.

Example swap_layers_once_keeps_tween :
  items_asc ∘ layers_ <$> on_both 1 2 (swap_layers_func false) two_stages !! 1%positive =
    Some [(0, make_layer 0 None (still 4))] ∧
  items_asc ∘ layers_ <$> on_both 1 2 (swap_layers_func false) two_stages !! 2%positive =
    Some [(0, make_layer 11 None tweened_transform_default)].
Proof. by vm_compute. Qed.

(** The cross-stage [swap_layer] of a stage with itself is queued, and
    exchanges the two layers when it runs. *)
Lemma swap_layer_with_self_is_not_noop :
  (swap_layer_with 1 0 1 1 true one_stage_world).2 = queued 1 0 ∧
  layers_ <$>
    objects (run_executor 1 (swap_layer_with 1 0 1 1 true one_stage_world).1) !! 1%positive ≠
    layers_ <$> objects one_stage_world !! 1%positive ∧
  ¬ self_swap_is_noop (swap_layer_with 1 0 1 1 true) 1 one_stage_world.
Proof.
  split_and!.
  - by vm_compute.
  - vm_compute. discriminate.
  - intros (Hready & _). vm_compute in Hready. discriminate.
Qed.

Example swap_layer_with_self_exchanges :
  items_asc ∘ layers_ <$>
    objects (run_executor 1 (swap_layer_with 1 0 1 1 true one_stage_world).1) !! 1%positive =
    Some [(0, make_layer 22 None (still 0)); (1, make_layer 11 None (still 0))] ∧
  monitor_subject_ <$>
    objects (swap_layer_with 1 0 1 1 true one_stage_world).1 !! 1%positive =
    Some [layer_message 0 "swaptransforms"; layer_message 0 "swap"].
Proof. by vm_compute. Qed.

(** A pass over a stage with one layer and no route leaves an empty
    consumer map under the layer's index. *)
Lemma render_leaves_empty_route :
  reachable 1 (load_task 0 5 false (impl_new 1)) ∧
  routes_nonempty (load_task 0 5 false (impl_new 1)) ∧
  layer_consumers_ (operator_call_task () (load_task 0 5 false (impl_new 1))).1 !! 0 =
    Some ∅ ∧
  ¬ routes_nonempty (operator_call_task () (load_task 0 5 false (impl_new 1))).1.
Proof.
  assert (reachable 1 (load_task 0 5 false (impl_new 1))) as Hr by repeat constructor.
  split_and!; [done|by eapply reachable_routes_nonempty|by vm_compute|].
  intros Hne. by apply (Hne 0 ∅).
Qed.

(** The commands on a stage with one route. *)
Lemma commands_keep_routes_nonempty_witness :
  (∀ c, routes_nonempty (run_command c one_route_stage)) ∧
  (∀ swap_transforms b, routes_nonempty b →
     routes_nonempty (swap_layers_func swap_transforms one_route_stage b).1 ∧
     routes_nonempty (swap_layers_func swap_transforms one_route_stage b).2) ∧
  (∀ index other_index swap_transforms b, routes_nonempty b →
     routes_nonempty (swap_layer_func index other_index swap_transforms one_route_stage b).1 ∧
     routes_nonempty (swap_layer_func index other_index swap_transforms one_route_stage b).2) ∧
  (∀ token layer m,
     layer_consumers_ one_route_stage !! layer = Some m → delete token m = ∅ →
     layer_consumers_ (remove_layer_consumer_task token layer one_route_stage) !! layer = None).
Proof.
  apply commands_keep_routes_nonempty.
  apply (reachable_routes_nonempty 1). unfold one_route_stage. repeat constructor.
Defined.

Example remove_last_route_erases_key :
  keys_asc (layer_consumers_ one_route_stage) = [7] ∧
  layer_consumers_ (remove_layer_consumer_task 100 7 one_route_stage) = ∅.
Proof. by vm_compute. Qed.

(** The pass over the stage with the failing producer. *)
Lemma render_catches_witness :
  ∃ frames,
    (operator_call_task () failing_stage).2 = returns frames ∧
    dom frames = active failing_stage ∧
    layers_ (operator_call_task () failing_stage).1 = ∅ ∧
    log_ (operator_call_task () failing_stage).1 =
      log_ failing_stage ++ ["producer failed"%string].
Proof.
  apply (render_catches_exception (values := values) () failing_stage
           "producer failed"%string).
  vm_compute. reflexivity.
Defined.

Example render_of_failing_stage :
  (try_block () (failing_stage, ∅)).2 = throws "producer failed"%string ∧
  (operator_call_task () failing_stage).2 = returns {[1 := 0; 5 := 0; 7 := 0]}.
Proof. by vm_compute. Qed.

(** After the pass over the stage with the failing producer, index 7,
    which came with a consumer, is not a layer. *)
Lemma render_with_exception_populates_no_layer :
  ¬ pass_populates_tables () failing_stage.
Proof.
  intros [Hlayers _]. specialize (Hlayers 7 {[100 := (foreground, 1000)]}).
  assert (7 ∈ dom (layers_ (operator_call_task () failing_stage).1)) as Hin.
  { apply Hlayers; [by vm_compute|]. apply insert_non_empty. }
  apply elem_of_dom in Hin as [l Hl]. vm_compute in Hl. discriminate.
Qed.

(** The pass over the stage with a route and no layer at index 7. *)
Lemma render_populates_tables_witness :
  pass_populates_tables () route_only_stage.
Proof.
  destruct (render_populates_tables (values := values) () route_only_stage)
    as [Hconsumers Hlayers].
  split; [apply Hlayers; by vm_compute|exact Hconsumers].
Defined.

(** The same pass: the frames it returns, the frames it sends to the
    consumers of layer 5 (which has a background) and of index 7 (which
    gets a new, empty layer), and the layers it leaves. *)
Example render_of_route_only_stage :
  (operator_call_task () route_only_stage).2 = returns {[5 := 58; 7 := 0]} ∧
  sent_ (operator_call_task () route_only_stage).1 =
    [(1000, 56); (1001, 56); (1002, 55); (1003, 0); (1004, 0)] ∧
  keys_asc (layers_ (operator_call_task () route_only_stage).1) = [5; 7].
Proof. by vm_compute. Qed.

(** Layers 1, 5 and 3 all cover the point (500, 500): layer 5 is the
    target and the only layer visited. No layer covers (1500, 500): all
    three are visited, from the top, and the event is dropped. *)
Example hit_test_of_1_5_3 :
  collission_detect 500 500 covering_stage = Some (0, 5) ∧
  collission_visited 500 500 covering_stage = [5] ∧
  delivered_ (handle_event (500, 500) covering_stage).1 = [(5, (500, 500))] ∧
  collission_detect 1500 500 covering_stage = None ∧
  collission_visited 1500 500 covering_stage = [5; 3; 1] ∧
  delivered_ (handle_event (1500, 500) covering_stage).1 = [].
Proof. by vm_compute. Qed.

(** A [clear] that is queued has not run when [execute] calls its
    function: the function still finds the layer. *)
Example execute_overtakes_queued_clear :
  monitor_subject_ <$>
    objects (execute 1 report_layer_0 (clear 1 0 one_stage_world).1).1 !! 1%positive =
    Some [layer_message 0 "clear"; stage_message "layer 0 present"] ∧
  (execute 1 report_layer_0 (clear 1 0 one_stage_world).1).2 = returns make_ready_future ∧
  length (pending (execute 1 report_layer_0 (clear 1 0 one_stage_world).1).1 1) = 1%nat.
Proof. by vm_compute. Qed.

(** A new route on index 7 of a new stage, removed again. *)
Lemma add_then_remove_layer_consumer_witness :
  remove_layer_consumer_task 100 7
    (add_layer_consumer_task 100 7 foreground 1000 (impl_new 1)) = impl_new 1.
Proof. apply add_then_remove_layer_consumer; [reflexivity|discriminate]. Defined.

(** Stage 1 has the lower channel index of the two stages. *)
Lemma invoke_both_lower_channel_first_witness :
  channel_index_of two_stage_world 1 = Z.min 1 2 ∧
  invoke_both 1 2 id two_stage_world = begin_invoke 1 id high_priority two_stage_world ∧
  invoke_both 2 1 id two_stage_world = begin_invoke 1 id high_priority two_stage_world.
Proof.
  apply (invoke_both_lower_channel_first 1 2 id two_stage_world). vm_compute.
  discriminate.
Defined.

(** A swap of the two stages asked of stage 2: it runs once, whichever
    worker runs first. *)
Lemma invoke_both_runs_once_witness :
  let w1 := (invoke_both 2 1 (on_both 2 1 (swap_layers_func true)) two_stage_world).1 in
  objects (run_executor 1 (run_executor 2 w1)) =
    on_both 2 1 (swap_layers_func true) (objects two_stage_world) ∧
  objects (run_executor 2 (run_executor 1 w1)) =
    on_both 2 1 (swap_layers_func true) (objects two_stage_world) ∧
  pending (run_executor 1 (run_executor 2 w1)) 2 = [] ∧
  pending (run_executor 1 (run_executor 2 w1)) 1 = [].
Proof.
  apply (invoke_both_runs_once 2 1 _ two_stage_world); reflexivity.
Defined.

(** Layer 0 is cleared and then loaded: the load comes last. *)
Lemma commands_run_in_order_witness :
  let cs := [clear_command 0; load_command 0 5 true] in
  let s := stage_of 1 [(0, make_layer 11 None (still 0));
                       (1, make_layer 22 None (still 0))] [] in
  let w' := run_executor 1 (foldl (λ w c, submit 1 c w) one_stage_world cs) in
  objects w' =
    <[1%positive := foldl (λ s c, run_command c s)
                      (foldl (λ s m, publish m s) s (cs ≫= messages)) cs]>
      (objects one_stage_world) ∧
  pending w' 1 = [].
Proof.
  apply (commands_run_in_order 1 _ _ one_stage_world); reflexivity.
Defined.

(** Drawing layer 0 of the first stage, which has no consumer. *)
Lemma draw_puts_transformed_frame_witness :
  ∃ l1 raw transformed,
    layer_receive (values := values) (default (layer_new None) (layers_ stage_a !! 0)) () =
      (l1, returns (raw, transformed)) ∧
    (draw (values := values) 0 () (stage_a, ∅)).1.2 = <[0 := transformed]> ∅ ∧
    layers_ (draw (values := values) 0 () (stage_a, ∅)).1.1 =
      <[0 := if existsb (λ c : layer_consumer_entry, bool_decide (c.1 ≠ foreground))
                  (values_asc (default ∅ (layer_consumers_ stage_a !! 0)))
             then (layer_receive_background l1).1 else l1]> (layers_ stage_a).
Proof. apply (draw_puts_transformed_frame (values := values) 0 () stage_a ∅). by vm_compute. Defined.

(** A pass over the first stage: one layer, producer 11, offset 4. *)
Lemma render_returns_layer_frames_witness :
  ∃ frames,
    (operator_call_task () stage_a).2 = returns frames ∧
    dom frames = active stage_a ∧
    ∀ k, k ∈ active stage_a →
      frames !! k = output_of () (default (layer_new None) (layers_ stage_a !! k)).
Proof.
  apply (render_returns_layer_frames (values := values) () stage_a);
    [reflexivity|by vm_compute].
Defined.

Example render_of_stage_a :
  (operator_call_task () stage_a).2 = returns {[0 := 15]} ∧
  output_of () (make_layer 11 None (still 4)) = Some 15.
Proof. by vm_compute. Qed.

(** A pass over a new stage. *)
Lemma render_of_idle_stage_witness :
  operator_call_task () (impl_new 1) =
    (set_aggregator (λ _, []) (impl_new 1), returns ∅).
Proof.
  apply (render_of_idle_stage (values := values) () (impl_new 1)). by vm_compute.
Defined.

(** Layer 0 of the first stage rests at offset 4. *)
Lemma apply_transform_agrees_at_rest_witness :
  apply_transform_task 0 move_by_one 5 () stage_a =
  apply_transforms_task [(0, move_by_one, 5%N, ())] stage_a.
Proof. apply apply_transform_agrees_at_rest. by vm_compute. Defined.

(** Removing a route from a new stage. *)
Lemma remove_absent_layer_consumer_witness :
  remove_layer_consumer_task 100 7 (impl_new 1) =
    match layer_consumers_ (impl_new 1) !! 7 with
    | Some m => if decide (m = ∅) then set_layer_consumers (delete 7) (impl_new 1)
                else impl_new 1
    | None => impl_new 1
    end.
Proof. apply remove_absent_layer_consumer. reflexivity. Defined.

(** The pass after the one that failed draws index 7 only. *)
Lemma render_after_exception_witness :
  active (operator_call_task () failing_stage).1 =
    dom (filter (λ kv, kv.2 ≠ ∅) (layer_consumers_ failing_stage)).
Proof.
  apply (render_after_exception (values := values) () failing_stage
           "producer failed"%string).
  by vm_compute.
Defined.

(** A pass called on a stage of a world publishes the profiler message
    when the closure has run. *)
Example operator_call_publishes_time :
  monitor_subject_ <$> objects (operator_call 1 () one_stage_world).1 !! 1%positive =
    Some [profiler_time_message].
Proof. by vm_compute. Qed.

End checks.
